(** * N-gram statistics of the language-model notebook

    A shallow embedding of the code cells of
    [chapter_recurrent-neural-networks/lang-model.ipynb]:

    - the tokenisation of the text lines
      ([re.sub('[^A-Za-z]+', ' ', st).lower().split()]),
    - the word counter ([collections.Counter]) over the flattened corpus,
    - the word pairs and word triples obtained by zipping shifted slices of
      the word sequence, and their counters,
    - the smoothed estimates of the notebook's formulas, over exact
      rationals.

    Python integers are [Z], strings are [string], a [Counter] is a finite
    map from keys to [Z], and a division that raises [ZeroDivisionError]
    returns [None]. *)

From Stdlib Require Import ZArith QArith Qcanon Ascii String.
From stdpp Require Import numbers gmap strings list fin_maps sorting.

Local Open Scope Z_scope.

(** ** Characters and strings *)

Module Text.

(** The code point of a character.  A line is modelled as a string of
    8-bit characters; the notebook's pattern treats every character
    outside [A-Za-z] alike, whatever its code point. *)
Definition ord (c : ascii) : Z := Z.of_N (N_of_ascii c).

Definition chr (n : Z) : ascii := ascii_of_N (Z.to_N n).

(** The character class [[A-Za-z]] of the pattern. *)
Definition is_alpha (c : ascii) : bool :=
  ((65 <=? ord c) && (ord c <=? 90)) || ((97 <=? ord c) && (ord c <=? 122)).

(** The characters [a] to [z]. *)
Definition is_lower_alpha (c : ascii) : bool :=
  (97 <=? ord c) && (ord c <=? 122).

(** [str.isspace] on the code points below 256: the characters that
    [str.split()] treats as separators. *)
Definition isspace (c : ascii) : bool :=
  ((9 <=? ord c) && (ord c <=? 13)) || ((28 <=? ord c) && (ord c <=? 32))
  || (ord c =? 133) || (ord c =? 160).

(** [str.lower] on one character: the upper-case letters below 256 are
    [A-Z] and [0xC0-0xDE] without the multiplication sign [0xD7]. *)
Definition lower_char (c : ascii) : ascii :=
  if ((65 <=? ord c) && (ord c <=? 90))
     || ((192 <=? ord c) && (ord c <=? 222) && negb (ord c =? 215))
  then chr (ord c + 32) else c.

(** [st.lower()]. *)
Fixpoint lower (st : string) : string :=
  match st with
  | EmptyString => EmptyString
  | String c st' => String (lower_char c) (lower st')
  end.

(** The scanner of [re.sub('[^A-Za-z]+', ' ', st)]: a character of the
    class is copied; the first character of a run outside the class emits
    the replacement, the rest of the run ([in_run]) emits nothing. *)
Fixpoint sub_scan (in_run : bool) (st : string) : string :=
  match st with
  | EmptyString => EmptyString
  | String c st' =>
      if is_alpha c then String c (sub_scan false st')
      else if in_run then sub_scan true st'
      else String " " (sub_scan true st')
  end.

Definition re_sub (st : string) : string := sub_scan false st.

(** The end of a word in [str.split()]: an empty word is not emitted. *)
Definition flush (word : string) : list string :=
  match word with
  | EmptyString => []
  | _ => [word]
  end.

(** The scanner of [st.split()]: [word] is the word read so far. *)
Fixpoint split_scan (word : string) (st : string) : list string :=
  match st with
  | EmptyString => flush word
  | String c st' =>
      if isspace c then flush word ++ split_scan EmptyString st'
      else split_scan (word +:+ String c EmptyString) st'
  end.

Definition split (st : string) : list string := split_scan EmptyString st.

(** One element of [raw_dataset]:
    [re.sub('[^A-Za-z]+', ' ', st).lower().split()]. *)
Definition tokenize (st : string) : list string :=
  split (lower (re_sub st)).

(** [raw_dataset = [... for st in lines]]. *)
Definition raw_dataset (lines : list string) : list (list string) :=
  map tokenize lines.

(** Every character of a string satisfies [p]. *)
Fixpoint all_chars (p : ascii → bool) (st : string) : bool :=
  match st with
  | EmptyString => true
  | String c st' => p c && all_chars p st'
  end.

(** The characters of a string that satisfy [p], in order. *)
Fixpoint keep (p : ascii → bool) (st : string) : string :=
  match st with
  | EmptyString => EmptyString
  | String c st' => if p c then String c (keep p st') else keep p st'
  end.

(** The concatenation of a list of strings, [''.join(l)]. *)
Fixpoint join (l : list string) : string :=
  match l with
  | [] => EmptyString
  | w :: l' => w +:+ join l'
  end.

(** The tokenisation in the words of the specification, to be compared
    with [tokenize]: lower-case the line, remove the characters that are
    neither letters nor white space, split on white space. *)
Definition tokenize_spec (st : string) : list string :=
  split (keep (λ c, is_alpha c || isspace c) (lower st)).

(** What the substitution and the lower-casing do to one character: a
    letter is lower-cased, any other character becomes the separator. *)
Definition norm_char (c : ascii) : ascii :=
  if is_alpha c then lower_char c else " "%char.

(** The line with every character treated on its own by [norm_char]
    (runs are not merged). *)
Fixpoint norm (st : string) : string :=
  match st with
  | EmptyString => EmptyString
  | String c st' => String (norm_char c) (norm st')
  end.

(** A character outside the class [[A-Za-z]]. *)
Definition non_alpha (c : ascii) : bool := negb (is_alpha c).

End Text.

(** ** [collections.Counter] *)

Module Counter.
Section counter.
Context {K : Type} `{Countable K}.

(** One step of the counting loop of [Counter.update]:
    [mapping[elem] = mapping.get(elem, 0) + 1]. *)
Definition count_elem (m : gmap K Z) (elem : K) : gmap K Z :=
  <[elem := default 0 (m !! elem) + 1]> m.

(** [Counter.update(iterable)] on an existing counter. *)
Definition update (m : gmap K Z) (iterable : list K) : gmap K Z :=
  foldl count_elem m iterable.

(** [collections.Counter(iterable)]. *)
Definition Counter (iterable : list K) : gmap K Z := update ∅ iterable.

(** [c[key]]: [dict.__getitem__] with [Counter.__missing__], which
    returns 0 for a key that is not stored, and stores nothing. *)
Definition getitem (c : gmap K Z) (key : K) : Z :=
  match c !! key with
  | Some n => n
  | None => 0
  end.

(** [sum(c.values())]. *)
Definition sum_values (c : gmap K Z) : Z :=
  map_fold (λ _ v acc, v + acc) 0 c.

(** [len(c)]: the number of stored keys. *)
Definition len (c : gmap K Z) : Z := Z.of_nat (size c).

End counter.
End Counter.

(** ** Word sequences, pairs and triples *)

Module Ngram.
Import Counter.

(** [len(l)] of a list. *)
Definition llen {A} (l : list A) : Z := Z.of_nat (length l).

(** [l.count(x)]. *)
Definition occurrences {A} `{EqDecision A} (x : A) (l : list A) : Z :=
  llen (filter (λ y, y = x) l).

(** The adjustment of a slice bound to a sequence of length [n]: a
    negative bound counts from the end, and every bound is clipped to
    [0 .. n]. *)
Definition adjust (n i : Z) : Z :=
  if i <? 0 then (if i + n <? 0 then 0 else i + n)
  else (if n <=? i then n else i).

(** [l[start:stop]]; [None] is an omitted bound. *)
Definition slice {A} (start stop : option Z) (l : list A) : list A :=
  let n := llen l in
  let lo := match start with Some i => adjust n i | None => 0 end in
  let hi := match stop with Some i => adjust n i | None => n end in
  take (Z.to_nat (hi - lo)) (drop (Z.to_nat lo) l).

(** [zip(a, b, c)]: stops at the shortest argument. *)
Fixpoint zip3 {A B C} (a : list A) (b : list B) (c : list C)
  : list (A * B * C) :=
  match a, b, c with
  | x :: a', y :: b', z :: c' => (x, y, z) :: zip3 a' b' c'
  | _, _, _ => []
  end.

(** [wseq = [tk for st in raw_dataset for tk in st]]. *)
Definition wseq (raw_dataset : list (list string)) : list string :=
  concat raw_dataset.

(** [counter = collections.Counter([tk for st in raw_dataset for tk in st])]. *)
Definition counter (raw_dataset : list (list string)) : gmap string Z :=
  Counter (wseq raw_dataset).

(** [word_pairs = [pair for pair in zip(wseq[:-1], wseq[1:])]]. *)
Definition word_pairs (wseq : list string) : list (string * string) :=
  zip (slice None (Some (-1)) wseq) (slice (Some 1) None wseq).

(** [counter_pairs = collections.Counter(word_pairs)]. *)
Definition counter_pairs (wseq : list string) : gmap (string * string) Z :=
  Counter (word_pairs wseq).

(** [word_triples = [triple for triple in
                     zip(wseq[:-2], wseq[1:-1], wseq[2:])]]. *)
Definition word_triples (wseq : list string)
  : list (string * string * string) :=
  zip3 (slice None (Some (-2)) wseq) (slice (Some 1) (Some (-1)) wseq)
       (slice (Some 2) None wseq).

(** [counter_triples = collections.Counter(word_triples)]. *)
Definition counter_triples (wseq : list string)
  : gmap (string * string * string) Z :=
  Counter (word_triples wseq).

(** What a table built from the list [observed] satisfies: the stored
    keys are the observed ones, every stored count is at least 1, and
    the lookup of a key that is not stored gives 0. *)
Definition table_invariant {K} `{Countable K} (observed : list K)
    (table : gmap K Z) : Prop :=
  (∀ k, is_Some (table !! k) ↔ k ∈ observed)
  ∧ (∀ k n, table !! k = Some n → 1 ≤ n)
  ∧ (∀ k, k ∉ observed → getitem table k = 0).

(** The three tables of the notebook, by the width of their window. *)
Inductive order := Unigram | Bigram | Trigram.

Definition width (N : order) : Z :=
  match N with Unigram => 1 | Bigram => 2 | Trigram => 3 end.

(** The number of n-grams handed to the counter of order [N]. *)
Definition num_ngrams (N : order) (wseq : list string) : Z :=
  match N with
  | Unigram => llen wseq
  | Bigram => llen (word_pairs wseq)
  | Trigram => llen (word_triples wseq)
  end.

(** The n-grams handed to the counter of order [N] are pairwise distinct. *)
Definition distinct_ngrams (N : order) (wseq : list string) : Prop :=
  match N with
  | Unigram => NoDup wseq
  | Bigram => NoDup (word_pairs wseq)
  | Trigram => NoDup (word_triples wseq)
  end.

(** [sum(table.values())] of the table of order [N]. *)
Definition table_sum (N : order) (wseq : list string) : Z :=
  match N with
  | Unigram => sum_values (Counter wseq)
  | Bigram => sum_values (counter_pairs wseq)
  | Trigram => sum_values (counter_triples wseq)
  end.

(** [len(table)] of the table of order [N]. *)
Definition table_len (N : order) (wseq : list string) : Z :=
  match N with
  | Unigram => len (Counter wseq)
  | Bigram => len (counter_pairs wseq)
  | Trigram => len (counter_triples wseq)
  end.

(** The table of order [N] is the empty mapping. *)
Definition table_empty (N : order) (wseq : list string) : Prop :=
  match N with
  | Unigram => Counter wseq = ∅
  | Bigram => counter_pairs wseq = ∅
  | Trigram => counter_triples wseq = ∅
  end.

End Ngram.

(** ** Smoothed estimates *)

Module Smoothing.
Import Counter Ngram.

Local Open Scope Qc_scope.

(** [x / y] on numbers; a zero divisor raises [ZeroDivisionError].
    Numbers are exact rationals: rounding is not modelled. *)
Definition div (x y : Qc) : option Qc :=
  if decide (y = 0) then None else Some (x / y).

(** The first formula of the notebook, the estimate of a single word,
    [p(w) = (n(w) + eps1/m) / (n + eps1)], as a function of the word and
    of the table of word counts: [n(w)] is the count of [word] in
    [table1] (0 for a word that is not stored), [n] is [total], the
    number of words of the corpus, and [m] is [vocab_size], the number of
    words encountered. *)
Definition unigram_prob (word : string) (table1 : gmap string Z)
    (total : Z) (eps1 : Qc) (vocab_size : Z) : option Qc :=
  share ← div eps1 (Qc_of_Z vocab_size);
  div (Qc_of_Z (getitem table1 word) + share) (Qc_of_Z total + eps1).

(** The second formula of the notebook, the estimate of [w2] after
    [w1], [p(w2|w1) = (n(w1,w2) + eps2 * p(w2)) / (n(w1) + eps2)], on the
    tables of pair counts and of word counts.  The last three arguments
    are those of [unigram_prob]. *)
Definition p_hat_pair (w2 w1 : string) (table2 : gmap (string * string) Z)
    (table1 : gmap string Z) (eps2 : Qc)
    (total : Z) (eps1 : Qc) (vocab_size : Z) : option Qc :=
  p ← unigram_prob w2 table1 total eps1 vocab_size;
  div (Qc_of_Z (getitem table2 (w1, w2)) + eps2 * p)
      (Qc_of_Z (getitem table1 w1) + eps2).

(** Modelled from the spec: the function [bigram_prob] with its back-off
    branch, which the notebook does not define (it only gives the formula
    [p_hat_pair]): the value of [unigram_prob(w2)] when
    [count(w1, table1)] is 0, and the formula otherwise. *)
Definition bigram_prob (w2 w1 : string) (table2 : gmap (string * string) Z)
    (table1 : gmap string Z) (eps2 : Qc)
    (total : Z) (eps1 : Qc) (vocab_size : Z) : option Qc :=
  if decide (getitem table1 w1 = 0%Z)
  then unigram_prob w2 table1 total eps1 vocab_size
  else p_hat_pair w2 w1 table2 table1 eps2 total eps1 vocab_size.

End Smoothing.

(** ** The scenario of the specification *)

Module Scenario.
Import Counter Ngram Smoothing.

Definition tokens : list string := ["a"; "b"; "a"; "b"; "a"].

Definition unigram_table : gmap string Z := Counter tokens.

Definition bigram_table : gmap (string * string) Z := counter_pairs tokens.

(** A line with an apostrophe inside a word. *)
Definition dont : string := "don't".

(** A line that is only a line feed. *)
Definition blank_line : string := String (Text.chr 10) EmptyString.

End Scenario.

(** ** Reading the lines *)

Module Lines.
Import Text.




End Lines.

(** ** The counter as an ordered dictionary *)

Module Ordered.
Section ordered.
Context {K : Type} `{EqDecision K}.

(** [d[elem] = d.get(elem, 0) + 1] on a dictionary kept as the list of
    its items in insertion order: the count of a stored key is replaced
    in place, a new key is appended with count 1. *)
Fixpoint bump (elem : K) (d : list (K * Z)) : list (K * Z) :=
  match d with
  | [] => [(elem, 0 + 1)]
  | (k, n) :: d' =>
      if decide (elem = k) then (k, n + 1) :: d' else (k, n) :: bump elem d'
  end.

(** [collections.Counter(iterable).items()], in insertion order. *)
Definition items (iterable : list K) : list (K * Z) :=
  foldl (λ d elem, bump elem d) [] iterable.

(** [d.get(key)] on the list of items. *)
Fixpoint assoc (d : list (K * Z)) (key : K) : option Z :=
  match d with
  | [] => None
  | (k, n) :: d' => if decide (key = k) then Some n else assoc d' key
  end.

(** The insertion of an item into a list sorted by decreasing count,
    behind the items of a larger count and in front of the others: an
    item inserted earlier with the same count stays behind it. *)
Fixpoint insert_desc (x : K * Z) (l : list (K * Z)) : list (K * Z) :=
  match l with
  | [] => [x]
  | y :: l' => if x.2 <? y.2 then y :: insert_desc x l' else x :: y :: l'
  end.

(** The order of the result of the sort: the count of an item is at
    least the counts of the items behind it. *)
Definition by_count (x y : K * Z) : Prop := y.2 ≤ x.2.

(** [sorted(d, key=itemgetter(1), reverse=True)]: the sort is stable, so
    its result is the one of inserting the items from the last to the
    first. *)
Definition sorted_desc (d : list (K * Z)) : list (K * Z) :=
  foldr insert_desc [] d.

(** [c.most_common(n)] on the items of the counter [c]: all the items by
    decreasing count when [n] is omitted, [heapq.nlargest(n, ...)]
    otherwise, which is the first [n] of them, and none when [n] is
    negative. *)
Definition most_common (n : option Z) (d : list (K * Z)) : list (K * Z) :=
  match n with
  | None => sorted_desc d
  | Some n => take (Z.to_nat n) (sorted_desc d)
  end.

(** [[count for _, count in c.most_common()]], as for [wordcounts],
    [bigramcounts] and [triplecounts]. *)
Definition counts (d : list (K * Z)) : list Z :=
  map snd (most_common None d).

(** The elements of a list in the order of their first occurrence. *)
Fixpoint first_seen (l : list K) : list K :=
  match l with
  | [] => []
  | x :: l' => x :: filter (λ y, y ≠ x) (first_seen l')
  end.

End ordered.

(** [sum(l)] on a list of integers. *)
Definition sum (l : list Z) : Z := foldr Z.add 0 l.

End Ordered.

(** ** The third formula *)

Module Trigram.
Import Counter Ngram Smoothing.

Local Open Scope Qc_scope.

(** The third formula of the notebook, the estimate of [w3] after [w1]
    and [w2], [(n(w1,w2,w3) + eps3 * p) / (n(w1,w2) + eps3)], on the
    tables of triple counts and of pair counts; [p_low] is the estimate
    for the shorter sequence that the formula fills in. *)
Definition p_hat_triple (w3 w2 w1 : string)
    (table3 : gmap (string * string * string) Z)
    (table2 : gmap (string * string) Z) (eps3 : Qc) (p_low : option Qc)
  : option Qc :=
  p ← p_low;
  div (Qc_of_Z (getitem table3 (w1, w2, w3)) + eps3 * p)
      (Qc_of_Z (getitem table2 (w1, w2)) + eps3).

End Trigram.

(** ** The mass of the estimates *)

Module Mass.

Local Open Scope Qc_scope.

(** The sum of a list of estimates; it raises when one of them does. *)
Fixpoint sum_probs (l : list (option Qc)) : option Qc :=
  match l with
  | [] => Some 0
  | o :: l' => p ← o; q ← sum_probs l'; Some (p + q)
  end.

End Mass.

(** * Properties *)

(** ** Facts about counters *)

Module CounterFacts.
Import Counter Ngram.

Section facts.
Context {K : Type} `{Countable K}.
Implicit Types (m c : gmap K Z) (l : list K) (k key : K).

Lemma getitem_lookup c key n : c !! key = Some n → getitem c key = n.
Proof. unfold getitem. by intros ->. Qed.

Lemma getitem_missing c key : c !! key = None → getitem c key = 0.
Proof. unfold getitem. by intros ->. Qed.

Lemma getitem_count_elem m elem k :
  getitem (count_elem m elem) k
  = getitem m k + (if decide (k = elem) then 1 else 0).
Proof.
  unfold getitem, count_elem. destruct (decide (k = elem)) as [->|Hne].
  - rewrite lookup_insert_eq. by destruct (m !! elem).
  - rewrite lookup_insert_ne by done. lia.
Qed.

Lemma occurrences_nil k : occurrences k [] = 0.
Proof. reflexivity. Qed.

Lemma occurrences_cons k x l :
  occurrences k (x :: l)
  = (if decide (k = x) then 1 else 0) + occurrences k l.
Proof.
  unfold occurrences, llen. rewrite filter_cons.
  destruct (decide (k = x)) as [->|Hne].
  - rewrite decide_True by done. simpl. lia.
  - rewrite decide_False by congruence. lia.
Qed.

Lemma occurrences_nonneg k l : 0 ≤ occurrences k l.
Proof. unfold occurrences, llen. lia. Qed.

Lemma occurrences_pos k l : k ∈ l → 1 ≤ occurrences k l.
Proof.
  induction 1 as [x l|x y l _ IH]; rewrite occurrences_cons.
  - rewrite decide_True by done. pose proof (occurrences_nonneg x l). lia.
  - destruct (decide (x = y)); lia.
Qed.

Lemma occurrences_absent k l : k ∉ l → occurrences k l = 0.
Proof.
  induction l as [|x l IH]; [done|].
  rewrite not_elem_of_cons. intros [Hne Hl].
  rewrite occurrences_cons, decide_False by done. rewrite IH by done. lia.
Qed.

Lemma occurrences_le_len k l : occurrences k l ≤ llen l.
Proof.
  unfold occurrences, llen. pose proof (length_filter (λ y, y = k) l). lia.
Qed.

(** The counting loop adds to every count the number of occurrences. *)
Lemma getitem_update m l k :
  getitem (update m l) k = getitem m k + occurrences k l.
Proof.
  unfold update. revert m. induction l as [|x l IH]; intros m; simpl.
  - rewrite occurrences_nil. lia.
  - rewrite IH, getitem_count_elem, occurrences_cons. lia.
Qed.

Lemma dom_count_elem m elem : dom (count_elem m elem) = {[elem]} ∪ dom m.
Proof. unfold count_elem. apply dom_insert_L. Qed.

Lemma dom_update m l : dom (update m l) = dom m ∪ list_to_set l.
Proof.
  unfold update. revert m. induction l as [|x l IH]; intros m; simpl.
  - by rewrite (right_id_L ∅ (∪)).
  - rewrite IH, dom_count_elem, (comm_L (∪) {[x]}). by rewrite (assoc_L (∪)).
Qed.

Lemma dom_Counter l : dom (Counter l) = list_to_set l.
Proof.
  unfold Counter. by rewrite dom_update, dom_empty_L, (left_id_L ∅ (∪)).
Qed.

(** The stored keys are the elements that were counted. *)
Lemma Counter_stored l k : is_Some (Counter l !! k) ↔ k ∈ l.
Proof. by rewrite <- elem_of_dom, dom_Counter, elem_of_list_to_set. Qed.

Lemma getitem_Counter l k : getitem (Counter l) k = occurrences k l.
Proof.
  unfold Counter. rewrite getitem_update.
  rewrite getitem_missing by apply lookup_empty. lia.
Qed.

Lemma Counter_lookup l k :
  Counter l !! k = if decide (k ∈ l) then Some (occurrences k l) else None.
Proof.
  destruct (decide (k ∈ l)) as [Hin|Hout].
  - apply Counter_stored in Hin as [n Hn]. rewrite Hn. f_equal.
    rewrite <- getitem_Counter. symmetry. by apply getitem_lookup.
  - apply eq_None_not_Some. by rewrite Counter_stored.
Qed.

Lemma Counter_nil : Counter (@nil K) = ∅.
Proof. reflexivity. Qed.

Lemma Counter_empty_iff l : Counter l = ∅ ↔ l = [].
Proof.
  split; [|intros ->; apply Counter_nil].
  destruct l as [|x l]; [done|]. intros Hc.
  assert (is_Some (Counter (x :: l) !! x)) as [n Hn]
    by (apply Counter_stored; left).
  rewrite Hc, lookup_empty in Hn. done.
Qed.

Lemma sum_values_empty : sum_values (∅ : gmap K Z) = 0.
Proof. unfold sum_values. apply map_fold_empty. Qed.

Lemma sum_values_insert_fresh m k v :
  m !! k = None → sum_values (<[k:=v]> m) = v + sum_values m.
Proof.
  intros Hk. unfold sum_values. apply map_fold_insert_L; [|done].
  intros. lia.
Qed.

Lemma sum_values_insert m k v :
  sum_values (<[k:=v]> m) = sum_values m - getitem m k + v.
Proof.
  destruct (m !! k) as [n|] eqn:Hk.
  - rewrite (getitem_lookup _ _ _ Hk).
    rewrite <- (insert_delete_id m k n Hk) at 2.
    rewrite <- insert_delete_eq.
    rewrite !sum_values_insert_fresh by apply lookup_delete_eq. lia.
  - rewrite (getitem_missing _ _ Hk), sum_values_insert_fresh by done. lia.
Qed.

Lemma sum_values_count_elem m elem :
  sum_values (count_elem m elem) = sum_values m + 1.
Proof.
  unfold count_elem. rewrite sum_values_insert. unfold getitem.
  destruct (m !! elem); simpl; lia.
Qed.

Lemma sum_values_update m l :
  sum_values (update m l) = sum_values m + llen l.
Proof.
  unfold update, llen. revert m. induction l as [|x l IH]; intros m.
  - simpl. lia.
  - cbn [foldl length]. rewrite IH, sum_values_count_elem. lia.
Qed.

(** The values of a counter add up to the number of elements counted. *)
Lemma sum_values_Counter l : sum_values (Counter l) = llen l.
Proof. unfold Counter. rewrite sum_values_update, sum_values_empty. lia. Qed.

Lemma size_Counter l : size (Counter l) = length (remove_dups l).
Proof.
  rewrite <- size_dom, dom_Counter.
  replace (list_to_set l : gset K) with (list_to_set (remove_dups l) : gset K).
  - apply size_list_to_set, NoDup_remove_dups.
  - apply set_eq. intros k.
    by rewrite !elem_of_list_to_set, elem_of_remove_dups.
Qed.

Lemma length_remove_dups l : (length (remove_dups l) ≤ length l)%nat.
Proof.
  induction l as [|x l IH]; simpl; [lia|].
  destruct (decide_rel _ _ _); simpl; lia.
Qed.

Lemma length_remove_dups_eq l :
  length (remove_dups l) = length l ↔ NoDup l.
Proof.
  split.
  - induction l as [|x l IH]; simpl; [constructor|].
    pose proof (length_remove_dups l).
    destruct (decide_rel _ _ _) as [Hin|Hout]; simpl; intros Hlen; [lia|].
    constructor; [done|]. apply IH. lia.
  - induction 1 as [|x l Hout _ IH]; simpl; [done|].
    destruct (decide_rel _ _ _); [done|]. simpl. by rewrite IH.
Qed.

Lemma len_Counter_le l : len (Counter l) ≤ llen l.
Proof.
  unfold len, llen. rewrite size_Counter.
  pose proof (length_remove_dups l). lia.
Qed.

Lemma len_Counter_eq l : len (Counter l) = llen l ↔ NoDup l.
Proof.
  unfold len, llen. rewrite size_Counter, <- length_remove_dups_eq. lia.
Qed.

(** A counter holds the elements counted, each at least once. *)
Lemma Counter_invariant l : table_invariant l (Counter l).
Proof.
  split_and!.
  - apply Counter_stored.
  - intros k n Hn. pose proof (Counter_lookup l k) as Hk. rewrite Hn in Hk.
    destruct (decide (k ∈ l)) as [Hin|]; [|done].
    injection Hk as ->. by apply occurrences_pos.
  - intros k Hk. rewrite getitem_Counter. by apply occurrences_absent.
Qed.

End facts.
End CounterFacts.

(** ** Facts about slices, pairs and triples *)

Module NgramFacts.
Import Counter Ngram CounterFacts.

Section slices.
Context {A : Type}.
Implicit Types (l : list A).

Lemma slice_to_minus_1 l : slice None (Some (-1)) l = take (length l - 1) l.
Proof.
  unfold slice, adjust, llen. cbn [Z.ltb Z.compare drop Z.to_nat].
  destruct (Z.ltb_spec (-1 + Z.of_nat (length l)) 0); f_equal; lia.
Qed.

Lemma slice_to_minus_2 l : slice None (Some (-2)) l = take (length l - 2) l.
Proof.
  unfold slice, adjust, llen. cbn [Z.ltb Z.compare drop Z.to_nat].
  destruct (Z.ltb_spec (-2 + Z.of_nat (length l)) 0); f_equal; lia.
Qed.

Lemma slice_from_1 l : slice (Some 1) None l = drop 1 l.
Proof.
  unfold slice, adjust, llen. cbn [Z.ltb Z.compare].
  destruct (Z.leb_spec (Z.of_nat (length l)) 1).
  - destruct l as [|x [|y l]]; simpl in *; try done. lia.
  - change (Z.to_nat 1) with 1%nat. apply take_ge. rewrite length_drop. lia.
Qed.

Lemma slice_from_2 l : slice (Some 2) None l = drop 2 l.
Proof.
  unfold slice, adjust, llen. cbn [Z.ltb Z.compare].
  destruct (Z.leb_spec (Z.of_nat (length l)) 2).
  - destruct l as [|x [|y [|z l]]]; simpl in *; try done. lia.
  - change (Z.to_nat 2) with 2%nat. apply take_ge. rewrite length_drop. lia.
Qed.

Lemma slice_1_to_minus_1 l :
  slice (Some 1) (Some (-1)) l = take (length l - 2) (drop 1 l).
Proof.
  unfold slice, adjust, llen. cbn [Z.ltb Z.compare].
  destruct (Z.leb_spec (Z.of_nat (length l)) 1);
    destruct (Z.ltb_spec (-1 + Z.of_nat (length l)) 0).
  - destruct l as [|x [|y l]]; simpl in *; try done; lia.
  - destruct l as [|x [|y l]]; simpl in *; try done; lia.
  - lia.
  - change (Z.to_nat 1) with 1%nat. f_equal. lia.
Qed.

Lemma length_zip3 {B C} (a : list A) (b : list B) (c : list C) :
  length (zip3 a b c) = (length a `min` (length b `min` length c))%nat.
Proof.
  revert b c. induction a as [|x a IH]; intros [|y b] [|z c]; simpl; try lia.
  rewrite IH. lia.
Qed.

End slices.

Lemma word_pairs_unfold ws :
  word_pairs ws = zip (take (length ws - 1) ws) (drop 1 ws).
Proof. unfold word_pairs. by rewrite slice_to_minus_1, slice_from_1. Qed.

Lemma word_triples_unfold ws :
  word_triples ws
  = zip3 (take (length ws - 2) ws) (take (length ws - 2) (drop 1 ws))
         (drop 2 ws).
Proof.
  unfold word_triples.
  by rewrite slice_to_minus_2, slice_1_to_minus_1, slice_from_2.
Qed.

Lemma length_word_pairs ws : length (word_pairs ws) = (length ws - 1)%nat.
Proof.
  rewrite word_pairs_unfold, length_zip_with, length_take, length_drop. lia.
Qed.

Lemma length_word_triples ws :
  length (word_triples ws) = (length ws - 2)%nat.
Proof.
  rewrite word_triples_unfold, length_zip3, !length_take, !length_drop. lia.
Qed.

(** The number of n-grams is [len(wseq) - n + 1], and 0 when that is
    negative. *)
Lemma num_ngrams_eq N ws :
  num_ngrams N ws = Z.max 0 (llen ws - width N + 1).
Proof.
  destruct N; unfold num_ngrams, llen, width.
  - lia.
  - rewrite length_word_pairs. lia.
  - rewrite length_word_triples. lia.
Qed.

Lemma table_sum_eq N ws : table_sum N ws = num_ngrams N ws.
Proof.
  destruct N; unfold table_sum, num_ngrams, counter_pairs, counter_triples;
    apply sum_values_Counter.
Qed.

Lemma table_len_le N ws : table_len N ws ≤ num_ngrams N ws.
Proof.
  destruct N; unfold table_len, num_ngrams, counter_pairs, counter_triples;
    apply len_Counter_le.
Qed.

Lemma table_len_eq N ws :
  table_len N ws = num_ngrams N ws ↔ distinct_ngrams N ws.
Proof.
  destruct N;
    unfold table_len, num_ngrams, distinct_ngrams, counter_pairs,
      counter_triples; apply len_Counter_eq.
Qed.

Lemma table_empty_iff N ws : table_empty N ws ↔ num_ngrams N ws = 0.
Proof.
  destruct N; unfold table_empty, num_ngrams, counter_pairs, counter_triples,
    llen; rewrite Counter_empty_iff.
  - destruct ws; simpl; [done|]. split; [done|lia].
  - destruct (word_pairs ws); simpl; [done|]. split; [done|lia].
  - destruct (word_triples ws); simpl; [done|]. split; [done|lia].
Qed.

(** The first word of a pair occurs in the word sequence. *)
Lemma word_pairs_first ws w1 w2 : (w1, w2) ∈ word_pairs ws → w1 ∈ ws.
Proof.
  rewrite word_pairs_unfold. intros Hin%elem_of_zip_l.
  apply elem_of_take in Hin as (i & Hi & _). by eapply list_elem_of_lookup_2.
Qed.

Lemma lookup_zip3_Some {A B C} (a : list A) (b : list B) (c : list C)
    (i : nat) x y z :
  zip3 a b c !! i = Some (x, y, z)
  ↔ a !! i = Some x ∧ b !! i = Some y ∧ c !! i = Some z.
Proof.
  revert b c i. induction a as [|x' a IH]; intros [|y' b] [|z' c] [|i];
    simpl; try (split; [done|by intros (? & ? & ?)]).
  - split; [by intros [= -> -> ->]|by intros ([= ->] & [= ->] & [= ->])].
  - apply IH.
Qed.

(** The pair at position [i] is made of the words at positions [i] and
    [i + 1]: the window moves by one word. *)
Lemma word_pairs_lookup ws (i : nat) x y :
  word_pairs ws !! i = Some (x, y)
  ↔ ws !! i = Some x ∧ ws !! S i = Some y.
Proof.
  rewrite word_pairs_unfold, lookup_zip_with_Some. split.
  - intros (x' & y' & [= -> ->] & [Hx _]%lookup_take_Some & Hy).
    by rewrite lookup_drop in Hy.
  - intros [Hx Hy]. exists x, y. split; [done|].
    rewrite lookup_take_Some, lookup_drop. split_and!; [done| |done].
    apply lookup_lt_Some in Hy. lia.
Qed.

(** The triple at position [i] is made of the words at positions [i],
    [i + 1] and [i + 2]. *)
Lemma word_triples_lookup ws (i : nat) x y z :
  word_triples ws !! i = Some (x, y, z)
  ↔ ws !! i = Some x ∧ ws !! S i = Some y ∧ ws !! S (S i) = Some z.
Proof.
  rewrite word_triples_unfold, lookup_zip3_Some.
  rewrite !lookup_take_Some, !lookup_drop. simpl. split.
  - by intros ([Hx _] & [Hy _] & Hz).
  - intros (Hx & Hy & Hz). apply lookup_lt_Some in Hz as Hlt.
    split_and!; try done; lia.
Qed.

End NgramFacts.

(** ** Facts about the tokenisation *)

Module TextFacts.
Import Text.
#[local] Arguments String.append !_ _ / : simpl nomatch.

(** A case analysis over the 256 characters. *)
Ltac by_char c :=
  destruct c as [[] [] [] [] [] [] [] []]; vm_compute; try done; auto.

Lemma lower_char_alpha c : is_alpha c = true → is_lower_alpha (lower_char c) = true.
Proof. by_char c. Qed.

Lemma lower_char_alpha_nonspace c : is_alpha c = true → isspace (lower_char c) = false.
Proof. by_char c. Qed.

Lemma lower_char_space c : isspace c = true → lower_char c = c.
Proof. by_char c. Qed.

Lemma lower_alpha_nonspace c : is_lower_alpha c = true → isspace c = false.
Proof. by_char c. Qed.

Lemma append_empty_r s : s +:+ EmptyString = s.
Proof. induction s as [|c s IH]; simpl; [done|by rewrite IH]. Qed.

Lemma append_assoc s1 s2 s3 : (s1 +:+ s2) +:+ s3 = s1 +:+ (s2 +:+ s3).
Proof. induction s1 as [|c s1 IH]; simpl; [done|by rewrite IH]. Qed.

Lemma all_chars_app p s1 s2 :
  all_chars p (s1 +:+ s2) = all_chars p s1 && all_chars p s2.
Proof.
  induction s1 as [|c s1 IH]; simpl; [done|].
  rewrite IH. by destruct (p c).
Qed.

Lemma lower_app s1 s2 : lower (s1 +:+ s2) = lower s1 +:+ lower s2.
Proof. induction s1 as [|c s1 IH]; simpl; [done|by rewrite IH]. Qed.

Lemma norm_app s1 s2 : norm (s1 +:+ s2) = norm s1 +:+ norm s2.
Proof. induction s1 as [|c s1 IH]; simpl; [done|by rewrite IH]. Qed.

(** *** The scanner of [split] *)

Lemma elem_of_flush word tok : tok ∈ flush word → tok = word ∧ word ≠ EmptyString.
Proof.
  destruct word; simpl; [by intros ?%elem_of_nil|].
  by intros ->%list_elem_of_singleton.
Qed.

(** Every word that [split] returns is non-empty and made of the
    characters that are not white space. *)
Lemma split_scan_words p word st tok :
  (∀ c, p c = true → isspace c = false) →
  all_chars p word = true →
  all_chars (λ c, p c || isspace c) st = true →
  tok ∈ split_scan word st →
  tok ≠ EmptyString ∧ all_chars p tok = true.
Proof.
  intros Hp. revert word. induction st as [|c st IH]; intros word Hw Hst; simpl.
  - by intros [-> ?]%elem_of_flush.
  - simpl in Hst. apply andb_prop in Hst as [Hc Hst].
    destruct (isspace c) eqn:Hsp.
    + rewrite elem_of_app. intros [[-> ?]%elem_of_flush|Hin]; [done|].
      by apply (IH EmptyString).
    + apply IH; [|done]. rewrite all_chars_app, Hw. simpl.
      rewrite orb_false_r in Hc. by rewrite Hc.
Qed.

(** The words that [split] returns, put together, are the characters of
    the string that are not white space. *)
Lemma join_flush word : join (flush word) = word.
Proof. destruct word; simpl; [done|by rewrite append_empty_r]. Qed.

Lemma join_app l1 l2 : join (l1 ++ l2) = join l1 +:+ join l2.
Proof. induction l1 as [|w l1 IH]; simpl; [done|]. by rewrite IH, append_assoc. Qed.

Lemma join_split_scan word st :
  join (split_scan word st) = word +:+ keep (λ c, negb (isspace c)) st.
Proof.
  revert word. induction st as [|c st IH]; intros word; simpl.
  - by rewrite join_flush, append_empty_r.
  - destruct (isspace c); simpl.
    + by rewrite join_app, join_flush, IH.
    + by rewrite IH, append_assoc.
Qed.

(** A white-space character ends the word that is being read. *)
Lemma split_scan_app_space word s1 sp s2 :
  isspace sp = true →
  split_scan word (s1 +:+ String sp s2) = split_scan word s1 ++ split s2.
Proof.
  intros Hsp. revert word. induction s1 as [|c s1 IH]; intros word; simpl.
  - by rewrite Hsp.
  - destruct (isspace c); [|by apply IH].
    by rewrite (IH EmptyString), (assoc_L (++)).
Qed.

(** *** The substitution *)

(** After the first character of a run, the rest of the run is dropped;
    [split] does the same with the separators that follow a separator. *)
Lemma split_scan_sub_scan in_run word st :
  (in_run = true → word = EmptyString) →
  split_scan word (lower (sub_scan in_run st)) = split_scan word (norm st).
Proof.
  revert in_run word. induction st as [|c st IH]; intros in_run word Hrun; [done|].
  cbn [sub_scan norm]. unfold norm_char.
  destruct (is_alpha c) eqn:Hc.
  - cbn [lower split_scan]. rewrite (lower_char_alpha_nonspace _ Hc).
    by apply IH.
  - destruct in_run.
    + rewrite (Hrun eq_refl). cbn [split_scan isspace flush app].
      change (isspace " ") with true. cbn [flush app]. by apply IH.
    + cbn [lower split_scan]. change (lower_char " ") with " "%char.
      change (isspace " ") with true. cbn iota. f_equal. by apply IH.
Qed.

(** The tokens of a line: every letter lower-cased, every other
    character turned into a separator, and the result split. *)
Lemma tokenize_norm st : tokenize st = split (norm st).
Proof. unfold tokenize, re_sub, split. by apply split_scan_sub_scan. Qed.

Lemma norm_chars st :
  all_chars (λ c, is_lower_alpha c || isspace c) (norm st) = true.
Proof.
  induction st as [|c st IH]; [done|]. simpl. rewrite IH, andb_true_r.
  unfold norm_char. destruct (is_alpha c) eqn:Hc.
  - by rewrite lower_char_alpha.
  - done.
Qed.

Lemma keep_norm st :
  keep (λ c, negb (isspace c)) (norm st) = lower (keep is_alpha st).
Proof.
  induction st as [|c st IH]; [done|]. simpl. unfold norm_char.
  destruct (is_alpha c) eqn:Hc; simpl.
  - by rewrite (lower_char_alpha_nonspace _ Hc), IH.
  - done.
Qed.

(** The tokens are non-empty words of the letters [a] to [z]. *)
Lemma tokenize_words st tok :
  tok ∈ tokenize st → tok ≠ EmptyString ∧ all_chars is_lower_alpha tok = true.
Proof.
  rewrite tokenize_norm. unfold split.
  apply split_scan_words; [apply lower_alpha_nonspace|done|apply norm_chars].
Qed.

(** The tokens, put together, are the letters of the line, lower-cased. *)
Lemma join_tokenize st : join (tokenize st) = lower (keep is_alpha st).
Proof.
  rewrite tokenize_norm. unfold split. rewrite join_split_scan. simpl.
  apply keep_norm.
Qed.

(** A character that is not a letter separates the tokens before it from
    the tokens after it. *)
Lemma tokenize_separator u c v :
  is_alpha c = false →
  tokenize (u +:+ String c v) = tokenize u ++ tokenize v.
Proof.
  intros Hc. rewrite !tokenize_norm, norm_app. cbn [norm].
  unfold norm_char. rewrite Hc. by apply split_scan_app_space.
Qed.

(** Inside a run, the characters of the run emit nothing. *)
Lemma sub_scan_run r st :
  all_chars non_alpha r = true → sub_scan true (r +:+ st) = sub_scan true st.
Proof.
  induction r as [|c r IH]; [done|]. simpl. unfold non_alpha at 1.
  intros [Hc Hr]%andb_prop. apply negb_true_iff in Hc. rewrite Hc. by apply IH.
Qed.

Lemma sub_scan_letter in_run c st :
  is_alpha c = true → sub_scan in_run (String c st) = String c (re_sub st).
Proof. intros Hc. simpl. by rewrite Hc. Qed.

(** A maximal run in front of a letter is replaced by one space. *)
Lemma re_sub_run_letter r c st :
  r ≠ EmptyString → all_chars non_alpha r = true → is_alpha c = true →
  re_sub (r +:+ String c st) = String " " (String c (re_sub st)).
Proof.
  destruct r as [|c0 r]; [done|]. intros _. simpl. unfold non_alpha at 1.
  intros [Hc0 Hr]%andb_prop Hc. apply negb_true_iff in Hc0.
  unfold re_sub at 1. simpl. rewrite Hc0. f_equal.
  rewrite (sub_scan_run _ _ Hr). by apply sub_scan_letter.
Qed.

(** A run at the end of the line is replaced by one space. *)
Lemma re_sub_run_end r :
  r ≠ EmptyString → all_chars non_alpha r = true →
  re_sub r = String " " EmptyString.
Proof.
  destruct r as [|c0 r]; [done|]. intros _. simpl. unfold non_alpha at 1.
  intros [Hc0 Hr]%andb_prop. apply negb_true_iff in Hc0.
  unfold re_sub. simpl. rewrite Hc0. f_equal.
  rewrite <- (append_empty_r r). by rewrite (sub_scan_run _ _ Hr).
Qed.

(** On a line whose characters are letters and white space, removing the
    other characters changes nothing, and the two tokenisations agree. *)
Lemma split_scan_norm_lower word st :
  all_chars (λ c, is_alpha c || isspace c) st = true →
  split_scan word (norm st) = split_scan word (lower st).
Proof.
  revert word. induction st as [|c st IH]; intros word; [done|]. simpl.
  intros [Hc Hst]%andb_prop. unfold norm_char.
  destruct (is_alpha c) eqn:Halpha.
  - rewrite (lower_char_alpha_nonspace _ Halpha). by apply IH.
  - simpl in Hc. rewrite (lower_char_space _ Hc), Hc.
    change (isspace " ") with true. cbn iota. f_equal. by apply IH.
Qed.

Lemma lower_char_keeps c :
  is_alpha c || isspace c = true →
  is_alpha (lower_char c) || isspace (lower_char c) = true.
Proof. by_char c. Qed.

Lemma keep_lower_id st :
  all_chars (λ c, is_alpha c || isspace c) st = true →
  keep (λ c, is_alpha c || isspace c) (lower st) = lower st.
Proof.
  induction st as [|c st IH]; [done|]. simpl.
  intros [Hc Hst]%andb_prop. rewrite (lower_char_keeps _ Hc). by rewrite IH.
Qed.

Lemma tokenize_spec_agrees st :
  all_chars (λ c, is_alpha c || isspace c) st = true →
  tokenize st = tokenize_spec st.
Proof.
  intros Hst. unfold tokenize_spec. rewrite (keep_lower_id _ Hst).
  rewrite tokenize_norm. unfold split. by apply split_scan_norm_lower.
Qed.

End TextFacts.

(** ** Facts about the smoothed estimates *)

Module SmoothingFacts.
Import Counter Ngram Smoothing CounterFacts NgramFacts.

Local Open Scope Qc_scope.

Lemma div_Some x y : y ≠ 0 → div x y = Some (x / y).
Proof. intros Hy. unfold div. by rewrite decide_False. Qed.

Lemma div_None x : div x 0 = None.
Proof. unfold div. by rewrite decide_True. Qed.

Lemma Qc_of_Z_nonzero n : n ≠ 0%Z → Qc_of_Z n ≠ 0.
Proof. rewrite <- Z2Qc_inj_0. by intros Hn ?%Z2Qc_inj. Qed.

Lemma Qc_of_Z_le n m : (n ≤ m)%Z → Qc_of_Z n ≤ Qc_of_Z m.
Proof. apply (proj1 (Z2Qc_inj_le n m)). Qed.

Lemma Qc_of_Z_nonneg n : (0 ≤ n)%Z → 0 ≤ Qc_of_Z n.
Proof. rewrite <- Z2Qc_inj_0. apply Qc_of_Z_le. Qed.

Lemma Qc_of_Z_ge_1 n : (1 ≤ n)%Z → 1 ≤ Qc_of_Z n.
Proof. rewrite <- Z2Qc_inj_1. apply Qc_of_Z_le. Qed.

Lemma Qc_pos_nonzero x : 0 < x → x ≠ 0.
Proof. intros Hx ->. by apply (Qclt_not_eq 0 0). Qed.

Lemma Qc_0_lt_1 : 0 < 1.
Proof. reflexivity. Qed.

Lemma Qc_1_le_pos m : 1 ≤ m → 0 < m.
Proof. apply Qclt_le_trans, Qc_0_lt_1. Qed.

Lemma Qcdiv_pos x y : 0 < x → 0 < y → 0 < x / y.
Proof. intros Hx Hy. apply Qcmult_pos_pos; [done|]. by apply Qcinv_pos. Qed.

Lemma Qcdiv_nonneg x y : 0 ≤ x → 0 < y → 0 ≤ x / y.
Proof.
  intros Hx Hy. apply Qcmult_nonneg_nonneg; [done|].
  by apply Qclt_le_weak, Qcinv_pos.
Qed.

Lemma Qcdiv_le_1 x y : 0 < y → x ≤ y → x / y ≤ 1.
Proof.
  intros Hy Hxy. rewrite <- (Qcmult_inv_r y) by by apply Qc_pos_nonzero.
  apply Qcmult_le_mono_nonneg_r; [|done]. by apply Qclt_le_weak, Qcinv_pos.
Qed.

Lemma Qcdiv_le_self e m : 0 ≤ e → 1 ≤ m → e / m ≤ e.
Proof.
  intros He Hm. assert (0 < m) as Hpos by by apply Qc_1_le_pos.
  rewrite <- (Qcmult_1_r e) at 2. apply Qcmult_le_mono_nonneg_l; [done|].
  rewrite <- (Qcmult_1_l (/ m)). by apply (Qcdiv_le_1 1 m).
Qed.

(** The formula, where no division raises. *)
Lemma unigram_prob_defined word table1 total eps1 vocab_size :
  vocab_size ≠ 0%Z → Qc_of_Z total + eps1 ≠ 0 →
  unigram_prob word table1 total eps1 vocab_size
  = Some ((Qc_of_Z (getitem table1 word) + eps1 / Qc_of_Z vocab_size)
          / (Qc_of_Z total + eps1)).
Proof.
  intros Hm Hn. unfold unigram_prob.
  rewrite div_Some by by apply Qc_of_Z_nonzero. simpl.
  by rewrite div_Some.
Qed.

(** The formula raises when the vocabulary is empty or when the corpus is
    empty and nothing is added to it. *)
Lemma unigram_prob_raises word table1 total eps1 vocab_size :
  vocab_size = 0%Z ∨ Qc_of_Z total + eps1 = 0 →
  unigram_prob word table1 total eps1 vocab_size = None.
Proof.
  unfold unigram_prob. intros [->|Hn].
  - by rewrite Z2Qc_inj_0, div_None.
  - rewrite Hn. destruct (div eps1 _); simpl; [apply div_None|done].
Qed.

(** A pair whose first word does not occur was never counted. *)
Lemma getitem_pairs_unseen ws w1 w2 :
  getitem (Counter ws) w1 = 0%Z → getitem (counter_pairs ws) (w1, w2) = 0%Z.
Proof.
  unfold counter_pairs. rewrite !getitem_Counter. intros Hw1.
  apply occurrences_absent. intros Hin%word_pairs_first.
  apply occurrences_pos in Hin. lia.
Qed.

(** With no count of [w1] at all, the second formula gives back the
    estimate of [w2] alone, as long as something is added. *)
Lemma p_hat_pair_unseen ws w1 w2 eps2 total eps1 vocab_size :
  getitem (Counter ws) w1 = 0%Z → eps2 ≠ 0 →
  p_hat_pair w2 w1 (counter_pairs ws) (Counter ws) eps2 total eps1 vocab_size
  = unigram_prob w2 (Counter ws) total eps1 vocab_size.
Proof.
  intros Hw1 Heps. unfold p_hat_pair.
  rewrite (getitem_pairs_unseen _ _ _ Hw1), Hw1, Z2Qc_inj_0.
  destruct (unigram_prob _ _ _ _ _) as [p|]; [|done]. simpl.
  rewrite div_Some by by rewrite Qcplus_0_l. f_equal. by field.
Qed.

(** With no count of [w1] and nothing added, the second formula divides
    by zero. *)
Lemma p_hat_pair_unseen_raises ws w1 w2 total eps1 vocab_size :
  getitem (Counter ws) w1 = 0%Z →
  p_hat_pair w2 w1 (counter_pairs ws) (Counter ws) 0 total eps1 vocab_size
  = None.
Proof.
  intros Hw1. unfold p_hat_pair. rewrite Hw1, Z2Qc_inj_0, Qcplus_0_l.
  destruct (unigram_prob _ _ _ _ _) as [p|]; [|done]. simpl. apply div_None.
Qed.

Lemma unigram_prob_range word table1 total eps1 vocab_size :
  0 ≤ eps1 → (1 ≤ vocab_size)%Z →
  (0 ≤ getitem table1 word ≤ total)%Z →
  0 < eps1 ∨ (1 ≤ getitem table1 word)%Z →
  ∃ p, unigram_prob word table1 total eps1 vocab_size = Some p
       ∧ 0 < p ∧ p ≤ 1.
Proof.
  intros Heps Hm [Hc0 Hct] Hpos.
  assert (1 ≤ Qc_of_Z vocab_size) as Hm' by by apply Qc_of_Z_ge_1.
  assert (0 ≤ Qc_of_Z (getitem table1 word)) as Hc0'
    by by apply Qc_of_Z_nonneg.
  assert (Qc_of_Z (getitem table1 word) ≤ Qc_of_Z total) as Hct'
    by by apply Qc_of_Z_le.
  assert (0 < Qc_of_Z vocab_size) as Hm0 by by apply Qc_1_le_pos.
  assert (0 ≤ eps1 / Qc_of_Z vocab_size) as Hshare0 by by apply Qcdiv_nonneg.
  assert (eps1 / Qc_of_Z vocab_size ≤ eps1) as Hshare by by apply Qcdiv_le_self.
  assert (0 < Qc_of_Z (getitem table1 word) + eps1 / Qc_of_Z vocab_size) as Hnum.
  { destruct Hpos as [He|Hc1].
    - apply Qcplus_nonneg_pos; [done|]. by apply Qcdiv_pos.
    - apply Qcplus_pos_nonneg; [|done].
      by apply Qc_1_le_pos, Qc_of_Z_ge_1. }
  assert (Qc_of_Z (getitem table1 word) + eps1 / Qc_of_Z vocab_size
          ≤ Qc_of_Z total + eps1) as Hle by by apply Qcplus_le_compat.
  assert (0 < Qc_of_Z total + eps1) as Hden by by eapply Qclt_le_trans.
  eexists. split; [|split].
  - apply unigram_prob_defined; [lia|by apply Qc_pos_nonzero].
  - by apply Qcdiv_pos.
  - by apply Qcdiv_le_1.
Qed.

(** On the table of a corpus that is not empty, with its number of tokens
    and its number of keys, a positive [eps1] is enough. *)
Lemma unigram_prob_corpus_range (ws : list string) word eps1 :
  ws ≠ [] → 0 < eps1 →
  ∃ p, unigram_prob word (Counter ws) (llen ws) eps1 (len (Counter ws))
       = Some p ∧ 0 < p ∧ p ≤ 1.
Proof.
  intros Hws Heps. apply unigram_prob_range.
  - by apply Qclt_le_weak.
  - unfold len. rewrite size_Counter.
    destruct ws as [|w ws]; [done|].
    assert (w ∈ remove_dups (w :: ws)) as Hin
      by (apply elem_of_remove_dups; left).
    destruct (remove_dups (w :: ws)); [by apply elem_of_nil in Hin|].
    simpl. lia.
  - rewrite getitem_Counter. split.
    + apply occurrences_nonneg.
    + apply occurrences_le_len.
  - by left.
Qed.

(** Without smoothing, a word that is not in the table gets 0. *)
Lemma unigram_prob_unseen_zero word table1 total vocab_size :
  getitem table1 word = 0%Z → total ≠ 0%Z → vocab_size ≠ 0%Z →
  unigram_prob word table1 total 0 vocab_size = Some 0.
Proof.
  intros Hc Ht Hm. rewrite unigram_prob_defined; [|done|].
  - rewrite Hc, Z2Qc_inj_0. f_equal. field.
    split; rewrite ?Qcplus_0_r; by apply Qc_of_Z_nonzero.
  - rewrite Qcplus_0_r. by apply Qc_of_Z_nonzero.
Qed.

End SmoothingFacts.

(** * The claims *)

Module Claims.
Import Text Counter Ngram Smoothing Scenario.
Import CounterFacts NgramFacts TextFacts SmoothingFacts.

(** C1: for every corpus (a list of token lists), the values of the
    unigram table built over the flattened token sequence add up to the
    number of tokens of that sequence. *)
Theorem unigram_counts_sum (raw_dataset : list (list string)) :
  sum_values (counter raw_dataset) = llen (wseq raw_dataset).
Proof. unfold counter. apply sum_values_Counter. Qed.

(** C2: for every token sequence and every n in 1, 2, 3, the window of
    width n moves by one token: the n-gram at position i starts at token
    i; [len(tokens) - n + 1] n-grams are counted when there are at least
    n tokens, and the table is empty when there are fewer. *)
Theorem ngram_window_count (ws : list string) (N : order) :
  (width N ≤ llen ws →
     num_ngrams N ws = llen ws - width N + 1
     ∧ table_sum N ws = llen ws - width N + 1)
  ∧ (llen ws < width N → num_ngrams N ws = 0 ∧ table_empty N ws)
  ∧ (∀ (i : nat) x y,
       word_pairs ws !! i = Some (x, y)
       ↔ ws !! i = Some x ∧ ws !! S i = Some y)
  ∧ (∀ (i : nat) x y z,
       word_triples ws !! i = Some (x, y, z)
       ↔ ws !! i = Some x ∧ ws !! S i = Some y ∧ ws !! S (S i) = Some z).
Proof.
  split_and!.
  - intros Hlen. rewrite table_sum_eq, num_ngrams_eq. lia.
  - intros Hlen. rewrite table_empty_iff, num_ngrams_eq. lia.
  - apply word_pairs_lookup.
  - apply word_triples_lookup.
Qed.

Lemma ngram_window_count_witness :
  (num_ngrams Bigram tokens = 5 - 2 + 1 ∧ table_sum Bigram tokens = 5 - 2 + 1)
  ∧ (num_ngrams Trigram ["a"; "b"] = 0 ∧ table_empty Trigram ["a"; "b"]).
Proof.
  split.
  - apply (proj1 (ngram_window_count tokens Bigram)). vm_compute. discriminate.
  - apply (proj1 (proj2 (ngram_window_count ["a"; "b"] Trigram))).
    vm_compute. reflexivity.
Defined.

(** C3: for every token sequence and every word w2, when the word w1 has
    count 0, [bigram_prob(w2, w1)] is [unigram_prob(w2)]: the branch of
    the back-off returns the lower-order estimate, and no division by
    the zero count is made.  The formula of the notebook gives the same
    value as long as eps2 is not 0, and divides by zero when it is. *)
Theorem bigram_backoff_unseen (ws : list string) (w1 w2 : string)
    (eps2 : Qc) (total : Z) (eps1 : Qc) (vocab_size : Z) :
  getitem (Counter ws) w1 = 0 →
  bigram_prob w2 w1 (counter_pairs ws) (Counter ws) eps2
              total eps1 vocab_size
  = unigram_prob w2 (Counter ws) total eps1 vocab_size
  ∧ (eps2 ≠ 0%Qc →
     p_hat_pair w2 w1 (counter_pairs ws) (Counter ws) eps2
                total eps1 vocab_size
     = unigram_prob w2 (Counter ws) total eps1 vocab_size)
  ∧ (eps2 = 0%Qc →
     p_hat_pair w2 w1 (counter_pairs ws) (Counter ws) eps2
                total eps1 vocab_size
     = None).
Proof.
  intros Hw1. split_and!.
  - unfold bigram_prob. by rewrite decide_True.
  - by apply p_hat_pair_unseen.
  - intros ->. by apply p_hat_pair_unseen_raises.
Qed.

Lemma bigram_backoff_unseen_witness :
  bigram_prob "a" "c" bigram_table unigram_table 1 5 0 2
  = unigram_prob "a" unigram_table 5 0 2.
Proof.
  refine (proj1 (bigram_backoff_unseen tokens "c" "a" 1%Qc 5 0%Qc 2 _)).
  vm_compute. reflexivity.
Defined.

(** C4, as amended: [unigram_prob] returns a value greater than 0 and at
    most 1 when eps1 is not negative, the vocabulary size is at least 1,
    the count of the word is between 0 and the total, and either eps1 is
    positive or the word has been counted; with eps1 = 0, a word that is
    not in the table gets exactly 0. *)
Theorem unigram_prob_unit_interval (word : string) (table1 : gmap string Z)
    (total : Z) (eps1 : Qc) (vocab_size : Z) :
  (0 ≤ eps1)%Qc → 1 ≤ vocab_size →
  0 ≤ getitem table1 word ≤ total →
  ((0 < eps1)%Qc ∨ 1 ≤ getitem table1 word →
   ∃ p, unigram_prob word table1 total eps1 vocab_size = Some p
        ∧ (0 < p)%Qc ∧ (p ≤ 1)%Qc)
  ∧ (eps1 = 0%Qc → getitem table1 word = 0 → total ≠ 0 →
     unigram_prob word table1 total eps1 vocab_size = Some 0%Qc).
Proof.
  intros Heps Hm Hc. split.
  - intros Hpos. by apply unigram_prob_range.
  - intros -> Hc0 Ht. apply unigram_prob_unseen_zero; [done|done|lia].
Qed.

Lemma unigram_prob_unit_interval_witness :
  ∃ p, unigram_prob "c" unigram_table 5 1 2 = Some p
       ∧ (0 < p)%Qc ∧ (p ≤ 1)%Qc.
Proof.
  refine (proj1 (unigram_prob_unit_interval "c" unigram_table 5 1%Qc 2
            _ _ _) _).
  - vm_compute. discriminate.
  - lia.
  - vm_compute. split; discriminate.
  - left. reflexivity.
Defined.

(** C4, as stated, fails: with eps1 = 0, the word c, which the table of
    the scenario does not hold, gets 0, which is not greater than 0. *)
Lemma unigram_prob_unseen_counterexample :
  ¬ ∃ p, unigram_prob "c" unigram_table 5 0 2 = Some p
         ∧ (0 < p)%Qc ∧ (p ≤ 1)%Qc.
Proof.
  intros (p & Hp & Hpos & _).
  assert (unigram_prob "c" unigram_table 5 0 2 = Some 0%Qc) as H0
    by (by apply unigram_prob_unseen_zero).
  rewrite H0 in Hp. injection Hp as <-. by apply (Qclt_not_eq 0 0) in Hpos.
Qed.

(** C5: for every word, table, total, eps1 and vocabulary size for which
    no division raises, [unigram_prob] is
    [(count(word, table1) + eps1/vocab_size) / (total + eps1)] (a
    division raises when the vocabulary size or [total + eps1] is 0); on the
    table of a corpus, with its number of tokens and its number of
    stored keys, the count is the number of occurrences of the word and
    the vocabulary size is the number of distinct words. *)
Theorem unigram_prob_formula (word : string) (table1 : gmap string Z)
    (total : Z) (eps1 : Qc) (vocab_size : Z)
    (raw_dataset : list (list string)) :
  (vocab_size ≠ 0 → (Qc_of_Z total + eps1)%Qc ≠ 0%Qc →
   unigram_prob word table1 total eps1 vocab_size
   = Some ((Qc_of_Z (getitem table1 word) + eps1 / Qc_of_Z vocab_size)
           / (Qc_of_Z total + eps1))%Qc)
  ∧ (vocab_size = 0 ∨ (Qc_of_Z total + eps1)%Qc = 0%Qc →
     unigram_prob word table1 total eps1 vocab_size = None)
  ∧ (wseq raw_dataset ≠ [] →
     (Qc_of_Z (llen (wseq raw_dataset)) + eps1)%Qc ≠ 0%Qc →
     unigram_prob word (counter raw_dataset) (llen (wseq raw_dataset)) eps1
                  (len (counter raw_dataset))
     = Some ((Qc_of_Z (occurrences word (wseq raw_dataset))
              + eps1 / Qc_of_Z (llen (remove_dups (wseq raw_dataset))))
             / (Qc_of_Z (llen (wseq raw_dataset)) + eps1))%Qc).
Proof.
  split_and!.
  - apply unigram_prob_defined.
  - apply unigram_prob_raises.
  - intros Hws Hden. unfold counter, len, llen.
    rewrite unigram_prob_defined; [|rewrite size_Counter|done].
    + by rewrite getitem_Counter, size_Counter.
    + destruct (wseq raw_dataset) as [|w ws]; [done|].
      assert (w ∈ remove_dups (w :: ws)) as Hin
        by (apply elem_of_remove_dups; left).
      destruct (remove_dups (w :: ws)); [by apply elem_of_nil in Hin|].
      simpl. lia.
Qed.

Lemma unigram_prob_formula_witness :
  unigram_prob "a" unigram_table 5 1 2
  = Some ((Qc_of_Z (getitem unigram_table "a") + 1 / Qc_of_Z 2)
          / (Qc_of_Z 5 + 1))%Qc
  ∧ unigram_prob "a" (counter [tokens]) (llen (wseq [tokens])) 1
                 (len (counter [tokens]))
    = Some ((Qc_of_Z (occurrences "a" (wseq [tokens]))
             + 1 / Qc_of_Z (llen (remove_dups (wseq [tokens]))))
            / (Qc_of_Z (llen (wseq [tokens])) + 1))%Qc.
Proof.
  split.
  - apply (proj1 (unigram_prob_formula "a" unigram_table 5 1%Qc 2 [tokens])).
    + lia.
    + vm_compute. discriminate.
  - apply (proj2 (proj2
      (unigram_prob_formula "a" unigram_table 5 1%Qc 2 [tokens]))).
    + vm_compute. discriminate.
    + vm_compute. discriminate.
Defined.

(** C6, as amended: for every token sequence and every N in 1, 2, 3, the
    number of keys of the table is at most [len(tokens) - N + 1] or 0,
    whichever is larger, with equality exactly when the n-grams are
    pairwise distinct; the bound [len(tokens) - N + 1] itself holds
    when there are at least N - 1 tokens. *)
Theorem table_len_bound (ws : list string) (N : order) :
  table_len N ws ≤ Z.max 0 (llen ws - width N + 1)
  ∧ (table_len N ws = Z.max 0 (llen ws - width N + 1)
     ↔ distinct_ngrams N ws)
  ∧ (width N - 1 ≤ llen ws → table_len N ws ≤ llen ws - width N + 1).
Proof.
  pose proof (table_len_le N ws) as Hle.
  pose proof (table_len_eq N ws) as Heq.
  rewrite num_ngrams_eq in Hle, Heq. split_and!; [done|done|lia].
Qed.

Lemma table_len_bound_witness :
  table_len Bigram tokens ≤ llen tokens - width Bigram + 1.
Proof.
  apply (proj2 (proj2 (table_len_bound tokens Bigram))).
  vm_compute. discriminate.
Defined.

(** C6, as stated, fails: the empty token sequence has no pair, and
    [len(tokens) - 2 + 1] is -1. *)
Lemma table_len_empty_counterexample :
  ¬ (table_len Bigram [] ≤ llen (@nil string) - width Bigram + 1).
Proof. vm_compute. intros Hle. by apply Hle. Qed.

(** C7, as amended: for every line, the tokens are those of the line in
    which every letter is lower-cased and every other character is
    turned into a separator, split on white space; put together, they are
    the letters of the line, lower-cased; on a line of letters and white
    space they are what lower-casing, removing and splitting give; the
    empty line and the line of one line feed have no token. *)
Theorem tokenize_separates (st : string) :
  tokenize st = split (norm st)
  ∧ join (tokenize st) = lower (keep is_alpha st)
  ∧ (all_chars (λ c, is_alpha c || isspace c) st = true →
     tokenize st = tokenize_spec st)
  ∧ tokenize EmptyString = []
  ∧ tokenize blank_line = [].
Proof.
  split_and!.
  - apply tokenize_norm.
  - apply join_tokenize.
  - apply tokenize_spec_agrees.
  - reflexivity.
  - reflexivity.
Qed.

Lemma tokenize_separates_witness :
  tokenize "Time Machine" = tokenize_spec "Time Machine".
Proof.
  apply (proj1 (proj2 (proj2 (tokenize_separates "Time Machine")))).
  vm_compute. reflexivity.
Defined.

(** C7, as stated, fails: on the line [dont] the apostrophe is not
    removed from the word but splits it. *)
Lemma tokenize_apostrophe_counterexample :
  tokenize dont = ["don"; "t"] ∧ tokenize_spec dont = ["dont"]
  ∧ tokenize dont ≠ tokenize_spec dont.
Proof. split_and!; [by vm_compute|by vm_compute|by vm_compute]. Qed.

(** C8: on the tokens a, b, a, b, a the unigram table is a: 3, b: 2, the
    bigram table is (a, b): 2, (b, a): 2, and [unigram_prob] of a with
    eps1 = 0 is 3/5. *)
Theorem scenario_tables :
  unigram_table = {[ "a" := 3; "b" := 2 ]}
  ∧ bigram_table = {[ ("a", "b") := 2; ("b", "a") := 2 ]}
  ∧ llen tokens = 5 ∧ len unigram_table = 2
  ∧ unigram_prob "a" unigram_table 5 0 2 = Some (Q2Qc (3 # 5)).
Proof. split_and!; by vm_compute. Qed.

(** C9: for every token sequence, in each of the three tables the stored
    keys are the observed n-grams, every stored count is at least 1, and
    the lookup of an n-gram that was not observed returns 0. *)
Theorem tables_hold_observed (ws : list string) :
  table_invariant ws (Counter ws)
  ∧ table_invariant (word_pairs ws) (counter_pairs ws)
  ∧ table_invariant (word_triples ws) (counter_triples ws).
Proof.
  unfold counter_pairs, counter_triples.
  split_and!; apply Counter_invariant.
Qed.

(** C10: for every line, every token is a non-empty word of the letters
    a to z; a run of other characters is replaced by one space, before a
    letter and at the end of the line, and a letter is copied; a
    character that is not a letter separates the tokens on its two
    sides, so that the line [dont] gives the two tokens don and t. *)
Theorem tokens_lowercase_words (st : string) :
  (∀ tok, tok ∈ tokenize st →
     tok ≠ EmptyString ∧ all_chars is_lower_alpha tok = true)
  ∧ (∀ r c st', r ≠ EmptyString → all_chars non_alpha r = true →
       is_alpha c = true →
       re_sub (r +:+ String c st') = String " " (String c (re_sub st')))
  ∧ (∀ r, r ≠ EmptyString → all_chars non_alpha r = true →
       re_sub r = String " " EmptyString)
  ∧ (∀ c st', is_alpha c = true →
       re_sub (String c st') = String c (re_sub st'))
  ∧ (∀ u c v, is_alpha c = false → st = u +:+ String c v →
       tokenize st = tokenize u ++ tokenize v)
  ∧ tokenize dont = ["don"; "t"].
Proof.
  split_and!.
  - apply tokenize_words.
  - apply re_sub_run_letter.
  - apply re_sub_run_end.
  - intros c st' Hc. by apply sub_scan_letter.
  - intros u c v Hc ->. by apply tokenize_separator.
  - reflexivity.
Qed.

Lemma tokens_lowercase_words_witness :
  tokenize "It's 8 o'clock" = tokenize "It's 8 o" ++ tokenize "clock".
Proof.
  refine (proj1 (proj2 (proj2 (proj2 (proj2
    (tokens_lowercase_words "It's 8 o'clock"))))) "It's 8 o" "'"%char "clock" _ _).
  - reflexivity.
  - reflexivity.
Defined.

End Claims.

(** * Further properties *)

(** ** The lines and the whole text *)

Module LinesFacts.
Import Text Lines Ngram TextFacts.
#[local] Arguments String.append !_ _ / : simpl nomatch.








End LinesFacts.

(** ** The tokens as lines *)

Module TokenFacts.
Import Text Counter Ngram TextFacts CounterFacts NgramFacts.
#[local] Arguments String.append !_ _ / : simpl nomatch.

Lemma norm_char_lower_alpha c : is_lower_alpha c = true → norm_char c = c.
Proof. by_char c. Qed.

Lemma norm_lower_alpha st : all_chars is_lower_alpha st = true → norm st = st.
Proof.
  induction st as [|c st IH]; [done|]. simpl.
  intros [Hc Hst]%andb_prop. by rewrite (norm_char_lower_alpha _ Hc), IH.
Qed.

Lemma split_scan_no_space word st :
  all_chars is_lower_alpha st = true →
  split_scan word st = flush (word +:+ st).
Proof.
  revert word. induction st as [|c st IH]; intros word; simpl.
  - by rewrite append_empty_r.
  - intros [Hc Hst]%andb_prop. rewrite (lower_alpha_nonspace _ Hc).
    by rewrite IH, append_assoc.
Qed.

(** A non-empty word of the letters [a] to [z] is its own only token. *)
Lemma tokenize_word st :
  st ≠ EmptyString → all_chars is_lower_alpha st = true → tokenize st = [st].
Proof.
  intros Hne Hst. rewrite tokenize_norm, (norm_lower_alpha _ Hst).
  unfold split. rewrite (split_scan_no_space _ _ Hst). simpl. by destruct st.
Qed.

(** The words of the corpus come from the tokens of a line. *)
Lemma elem_of_wseq_raw_dataset lines w :
  w ∈ wseq (raw_dataset lines) ↔ ∃ st, st ∈ lines ∧ w ∈ tokenize st.
Proof.
  unfold wseq, raw_dataset. rewrite list_elem_of_In, in_concat. split.
  - intros (toks & Htoks & Hw). apply in_map_iff in Htoks as (st & <- & Hst).
    exists st. by rewrite !list_elem_of_In.
  - intros (st & Hst & Hw). exists (tokenize st).
    rewrite !list_elem_of_In in *. split; [|done]. by apply in_map.
Qed.

(** The second word of a pair occurs in the word sequence. *)
Lemma word_pairs_second ws w1 w2 : (w1, w2) ∈ word_pairs ws → w2 ∈ ws.
Proof.
  rewrite word_pairs_unfold. intros Hin%elem_of_zip_r.
  apply list_elem_of_lookup in Hin as [i Hi]. rewrite lookup_drop in Hi.
  by eapply list_elem_of_lookup_2.
Qed.

End TokenFacts.

(** ** The counter in insertion order *)

Module OrderedFacts.
Import Counter Ngram Ordered CounterFacts.

Section facts.
Context {K : Type} `{Countable K}.
Implicit Types (d : list (K * Z)) (l : list K) (k x : K) (m : gmap K Z).

Lemma assoc_bump x d k :
  assoc (bump x d) k
  = if decide (k = x) then Some (default 0 (assoc d x) + 1) else assoc d k.
Proof.
  induction d as [|[k' n] d IH]; simpl.
  - by destruct (decide (k = x)).
  - destruct (decide (x = k')) as [->|Hx]; simpl.
    + destruct (decide (k = k')); [done|]. done.
    + destruct (decide (k = k')) as [->|Hk].
      * by rewrite decide_False by done.
      * apply IH.
Qed.

(** The list of items and the finite map hold the same counts all along
    the counting loop. *)
Lemma assoc_update d m l :
  (∀ k, assoc d k = m !! k) →
  ∀ k, assoc (foldl (λ d elem, bump elem d) d l) k = update m l !! k.
Proof.
  unfold update. revert d m. induction l as [|x l IH]; intros d m Hdm k; simpl.
  - apply Hdm.
  - apply IH. intros k'. rewrite assoc_bump. unfold count_elem.
    destruct (decide (k' = x)) as [->|Hne].
    + by rewrite lookup_insert_eq, Hdm.
    + by rewrite lookup_insert_ne.
Qed.

Lemma assoc_items l k : assoc (items l) k = Counter l !! k.
Proof. by apply assoc_update. Qed.

Lemma keys_bump x d :
  map fst (bump x d)
  = if decide (x ∈ map fst d) then map fst d else map fst d ++ [x].
Proof.
  induction d as [|[k' n] d IH]; [done|]. cbn [bump map fst].
  destruct (decide (x = k')) as [->|Hx]; cbn [map fst].
  - rewrite decide_True; [done|]. by left.
  - rewrite IH. destruct (decide (x ∈ map fst d)) as [Hin|Hout].
    + rewrite decide_True; [done|]. by right.
    + rewrite decide_False; [done|]. by intros [?|?]%elem_of_cons.
Qed.

Lemma elem_of_first_seen l x : x ∈ first_seen l ↔ x ∈ l.
Proof.
  induction l as [|y l IH]; simpl; [done|].
  rewrite !elem_of_cons, list_elem_of_filter, IH. split.
  - intros [->|[_ Hin]]; [by left|by right].
  - intros [->|Hin]; [by left|].
    destruct (decide (x = y)) as [->|Hne]; [by left|by right].
Qed.

Lemma NoDup_first_seen l : NoDup (first_seen l).
Proof.
  induction l as [|y l IH]; simpl; [constructor|]. constructor.
  - by intros [Hne _]%list_elem_of_filter.
  - by apply NoDup_filter.
Qed.

Lemma filter_first_seen_cons (P : K → Prop) `{∀ y, Decision (P y)} x l :
  filter P (first_seen (x :: l))
  = (if decide (P x) then [x] else [])
    ++ filter (λ y, P y ∧ y ≠ x) (first_seen l).
Proof.
  simpl. rewrite filter_cons, list_filter_filter.
  by destruct (decide (P x)).
Qed.

(** The keys come in the order in which they were first counted. *)
Lemma keys_foldl_bump d l :
  map fst (foldl (λ d elem, bump elem d) d l)
  = map fst d ++ filter (λ y, y ∉ map fst d) (first_seen l).
Proof.
  revert d. induction l as [|x l IH]; intros d.
  - simpl. by rewrite app_nil_r.
  - cbn [foldl]. rewrite IH, keys_bump, filter_first_seen_cons.
    destruct (decide (x ∈ map fst d)) as [Hin|Hout].
    + rewrite decide_False by tauto. simpl. f_equal.
      apply list_filter_iff. intros y. split; [|tauto].
      intros Hy. split; [done|]. by intros ->.
    + rewrite decide_True by done. rewrite <- (assoc_L (++)). simpl. do 2 f_equal.
      apply list_filter_iff. intros y.
      rewrite elem_of_app, list_elem_of_singleton. tauto.
Qed.

Lemma keys_items l : map fst (items l) = first_seen l.
Proof.
  unfold items. rewrite keys_foldl_bump. simpl.
  induction (first_seen l) as [|y fs IH]; [done|].
  rewrite filter_cons_True; [by rewrite IH|]. by intros ?%elem_of_nil.
Qed.

Lemma elem_of_assoc d k n :
  NoDup (map fst d) → (k, n) ∈ d ↔ assoc d k = Some n.
Proof.
  induction d as [|[k' n'] d IH]; simpl.
  - intros _. split; [by intros ?%elem_of_nil|done].
  - intros [Hk' Hd]%NoDup_cons. rewrite elem_of_cons.
    destruct (decide (k = k')) as [->|Hne].
    + split; [|by intros [= ->]; left]. intros [[= ->]|Hin]; [done|].
      destruct Hk'. apply list_elem_of_In, in_map_iff.
      exists (k', n). by rewrite <- list_elem_of_In.
    + rewrite <- (IH Hd). split; [|by right]. by intros [[= ? ?]|?].
Qed.

(** An item is in the list exactly when the table holds it. *)
Lemma elem_of_items l k n : (k, n) ∈ items l ↔ Counter l !! k = Some n.
Proof.
  rewrite <- assoc_items. apply elem_of_assoc.
  rewrite keys_items. apply NoDup_first_seen.
Qed.

Lemma sum_bump x d : sum (map snd (bump x d)) = sum (map snd d) + 1.
Proof.
  induction d as [|[k' n] d IH]; simpl; [lia|].
  destruct (decide (x = k')); simpl; [lia|]. rewrite IH. lia.
Qed.

Lemma sum_foldl_bump d l :
  sum (map snd (foldl (λ d elem, bump elem d) d l))
  = sum (map snd d) + llen l.
Proof.
  unfold llen. revert d. induction l as [|x l IH]; intros d.
  - simpl. lia.
  - cbn [foldl length]. rewrite IH, sum_bump. lia.
Qed.

Lemma sum_items l : sum (map snd (items l)) = llen l.
Proof. unfold items. rewrite sum_foldl_bump. simpl. lia. Qed.

Lemma length_first_seen l : length (first_seen l) = size (Counter l).
Proof.
  rewrite <- size_dom, dom_Counter.
  replace (list_to_set l : gset K) with (list_to_set (first_seen l) : gset K).
  - symmetry. apply size_list_to_set, NoDup_first_seen.
  - apply set_eq. intros k.
    by rewrite !elem_of_list_to_set, elem_of_first_seen.
Qed.

Lemma length_items l : length (items l) = size (Counter l).
Proof. by rewrite <- length_first_seen, <- keys_items, length_map. Qed.

End facts.
End OrderedFacts.

(** ** The items by decreasing count *)

Module SortedFacts.
Import Counter Ngram Ordered CounterFacts OrderedFacts.

Section facts.
Context {K : Type} `{Countable K}.
Implicit Types (d s : list (K * Z)) (x y : K * Z) (l : list K).

Lemma insert_desc_perm x s : insert_desc x s ≡ₚ x :: s.
Proof.
  induction s as [|y s IH]; simpl; [done|].
  destruct (x.2 <? y.2); [|done]. by rewrite IH, Permutation_swap.
Qed.

Lemma sorted_desc_perm d : sorted_desc d ≡ₚ d.
Proof.
  induction d as [|x d IH]; simpl; [done|].
  by rewrite insert_desc_perm, IH.
Qed.

Lemma insert_desc_sorted x s :
  StronglySorted by_count s → StronglySorted by_count (insert_desc x s).
Proof.
  induction 1 as [|y s Hs IH Hy]; simpl.
  - by repeat constructor.
  - destruct (Z.ltb_spec x.2 y.2) as [Hlt|Hge].
    + constructor; [done|]. rewrite insert_desc_perm.
      constructor; [|done]. unfold by_count. lia.
    + constructor; [by constructor|]. constructor; [done|].
      eapply Forall_impl; [exact Hy|]. unfold by_count. intros z. lia.
Qed.

Lemma sorted_desc_sorted d : StronglySorted by_count (sorted_desc d).
Proof.
  induction d as [|x d IH]; simpl; [constructor|]. by apply insert_desc_sorted.
Qed.

(** The items of one count stay in the order they had. *)
Lemma insert_desc_stable (v : Z) x s :
  filter (λ y, y.2 = v) (insert_desc x s) = filter (λ y, y.2 = v) (x :: s).
Proof.
  induction s as [|y s IH]; simpl; [done|].
  destruct (Z.ltb_spec x.2 y.2) as [Hlt|Hge]; [|done].
  rewrite (filter_cons _ y), IH, !filter_cons.
  destruct (decide (y.2 = v)), (decide (x.2 = v)); try done. lia.
Qed.

Lemma sorted_desc_stable (v : Z) d :
  filter (λ y, y.2 = v) (sorted_desc d) = filter (λ y, y.2 = v) d.
Proof.
  induction d as [|x d IH]; simpl; [done|].
  by rewrite insert_desc_stable, !filter_cons, IH.
Qed.

Lemma sorted_split (s1 s2 : list (K * Z)) x y :
  StronglySorted by_count (s1 ++ s2) → x ∈ s1 → y ∈ s2 → y.2 ≤ x.2.
Proof.
  induction s1 as [|z s1 IH]; simpl; [by intros _ ?%elem_of_nil|].
  intros [Hs Hz]%StronglySorted_inv [->|Hx]%elem_of_cons Hy.
  - rewrite Forall_forall in Hz. apply Hz. rewrite elem_of_app. by right.
  - by apply IH.
Qed.

Lemma sorted_map_snd s :
  StronglySorted by_count s → StronglySorted (λ a b : Z, b ≤ a) (map snd s).
Proof.
  induction 1 as [|y s Hs IH Hy]; simpl; constructor; [done|].
  apply Forall_forall. intros b Hb%list_elem_of_In.
  apply in_map_iff in Hb as (z & <- & Hz%list_elem_of_In).
  by apply (proj1 (Forall_forall _ _) Hy).
Qed.

Lemma sum_perm (a b : list Z) : a ≡ₚ b → sum a = sum b.
Proof. induction 1; simpl; lia. Qed.

(** Without [n], every item of the counter is listed. *)
Lemma most_common_all_perm d : most_common None d ≡ₚ d.
Proof. apply sorted_desc_perm. Qed.

Lemma elem_of_most_common_all l k n :
  (k, n) ∈ most_common None (items l) ↔ Counter l !! k = Some n.
Proof. by rewrite most_common_all_perm, elem_of_items. Qed.

Lemma length_most_common (n : Z) d :
  0 ≤ n →
  Z.of_nat (length (most_common (Some n) d)) = Z.min n (Z.of_nat (length d)).
Proof.
  intros Hn. simpl. rewrite length_take.
  pose proof (Permutation_length (sorted_desc_perm d)) as ->. lia.
Qed.

Lemma most_common_negative (n : Z) d : n ≤ 0 → most_common (Some n) d = [].
Proof. intros Hn. simpl. by replace (Z.to_nat n) with 0%nat by lia. Qed.

(** The counts of the counter are at least 1 and add up to the number of
    elements counted. *)
Lemma counts_perm l : counts (items l) ≡ₚ map snd (items l).
Proof. unfold counts. apply Permutation_map, most_common_all_perm. Qed.

Lemma items_positive l k n : (k, n) ∈ items l → 1 ≤ n.
Proof.
  rewrite elem_of_items. intros Hn.
  by apply (proj1 (proj2 (Counter_invariant l)) k n).
Qed.

End facts.
End SortedFacts.

(** ** Pairs, triples and the word sequence *)

Module WindowFacts.
Import Counter Ngram CounterFacts NgramFacts.

Section lists.
Context {A B C : Type} `{EqDecision A, EqDecision B, EqDecision C}.

Lemma occurrences_app (x : A) (l1 l2 : list A) :
  occurrences x (l1 ++ l2) = occurrences x l1 + occurrences x l2.
Proof.
  unfold occurrences, llen. rewrite filter_app, length_app. lia.
Qed.

Lemma occurrences_take (x : A) (n : nat) (l : list A) :
  occurrences x (take n l) ≤ occurrences x l.
Proof.
  rewrite <- (take_drop n l) at 2. rewrite occurrences_app.
  pose proof (occurrences_nonneg x (drop n l)). lia.
Qed.

Lemma occurrences_drop (x : A) (n : nat) (l : list A) :
  occurrences x (drop n l) ≤ occurrences x l.
Proof.
  rewrite <- (take_drop n l) at 2. rewrite occurrences_app.
  pose proof (occurrences_nonneg x (take n l)). lia.
Qed.

Lemma occurrences_zip_l (x : A) (y : B) (a : list A) (b : list B) :
  occurrences (x, y) (zip a b) ≤ occurrences x a.
Proof.
  revert b. induction a as [|x' a IH]; intros [|y' b]; simpl;
    rewrite ?occurrences_nil; try done.
  - apply occurrences_nonneg.
  - rewrite !occurrences_cons. specialize (IH b).
    destruct (decide ((x, y) = (x', y'))) as [[= -> ->]|Hne].
    + rewrite decide_True by done. lia.
    + destruct (decide (x = x')); lia.
Qed.

Lemma occurrences_zip_r (x : A) (y : B) (a : list A) (b : list B) :
  occurrences (x, y) (zip a b) ≤ occurrences y b.
Proof.
  revert b. induction a as [|x' a IH]; intros [|y' b]; simpl;
    rewrite ?occurrences_nil; try done.
  - apply occurrences_nonneg.
  - rewrite !occurrences_cons. specialize (IH b).
    destruct (decide ((x, y) = (x', y'))) as [[= -> ->]|Hne].
    + rewrite decide_True by done. lia.
    + destruct (decide (y = y')); lia.
Qed.

Lemma occurrences_zip3_l x y z (a : list A) (b : list B) (c : list C) :
  occurrences (x, y, z) (zip3 a b c) ≤ occurrences (x, y) (zip a b).
Proof.
  revert b c. induction a as [|x' a IH]; intros [|y' b] [|z' c]; simpl;
    rewrite ?occurrences_nil; try done; try apply occurrences_nonneg.
  rewrite !occurrences_cons. specialize (IH b c).
  destruct (decide ((x, y, z) = (x', y', z'))) as [[= -> -> ->]|Hne].
  - rewrite decide_True by done. lia.
  - destruct (decide ((x, y) = (x', y'))); lia.
Qed.

Lemma occurrences_zip3_r x y z (a : list A) (b : list B) (c : list C) :
  occurrences (x, y, z) (zip3 a b c) ≤ occurrences (y, z) (zip b c).
Proof.
  revert b c. induction a as [|x' a IH]; intros [|y' b] [|z' c]; simpl;
    rewrite ?occurrences_nil; try done; try apply occurrences_nonneg.
  rewrite !occurrences_cons. specialize (IH b c).
  destruct (decide ((x, y, z) = (x', y', z'))) as [[= -> -> ->]|Hne].
  - rewrite decide_True by done. lia.
  - destruct (decide ((y, z) = (y', z'))); lia.
Qed.

Lemma occurrences_fmap (f : A → B) (y : B) (l : list A) :
  occurrences y (f <$> l) = llen (filter (λ x, f x = y) l).
Proof.
  unfold occurrences, llen. induction l as [|x l IH]; [done|].
  rewrite fmap_cons, !filter_cons.
  destruct (decide (f x = y)); simpl; lia.
Qed.

End lists.

(** The pairs start with the words but the last and end with the words
    but the first. *)
Lemma word_pairs_fst ws : (word_pairs ws).*1 = slice None (Some (-1)) ws.
Proof.
  rewrite slice_to_minus_1, word_pairs_unfold. apply fst_zip.
  rewrite length_take, length_drop. lia.
Qed.

Lemma word_pairs_snd ws : (word_pairs ws).*2 = slice (Some 1) None ws.
Proof.
  rewrite slice_from_1, word_pairs_unfold. apply snd_zip.
  rewrite length_take, length_drop. lia.
Qed.

(** A pair is counted at most as often as each of its words. *)
Lemma pair_count_le ws w1 w2 :
  getitem (counter_pairs ws) (w1, w2) ≤ getitem (Counter ws) w1
  ∧ getitem (counter_pairs ws) (w1, w2) ≤ getitem (Counter ws) w2.
Proof.
  unfold counter_pairs. rewrite !getitem_Counter, word_pairs_unfold. split.
  - etrans; [apply occurrences_zip_l|apply occurrences_take].
  - etrans; [apply occurrences_zip_r|apply occurrences_drop].
Qed.

Lemma take_word_pairs ws :
  zip (take (length ws - 2) ws) (take (length ws - 2) (drop 1 ws))
  = take (length ws - 2) (word_pairs ws).
Proof.
  rewrite word_pairs_unfold, zip_with_take, take_take.
  by replace ((length ws - 2) `min` (length ws - 1))%nat
    with (length ws - 2)%nat by lia.
Qed.

Lemma drop_word_pairs ws :
  zip (take (length ws - 2) (drop 1 ws)) (drop 2 ws)
  = drop 1 (word_pairs ws).
Proof.
  rewrite word_pairs_unfold, zip_with_drop, drop_drop.
  f_equal. destruct ws as [|x ws]; [done|]. simpl.
  rewrite drop_0. destruct ws as [|y ws]; [done|]. simpl.
  by rewrite Nat.sub_0_r.
Qed.

(** A triple is counted at most as often as each of its two pairs. *)
Lemma triple_count_le ws w1 w2 w3 :
  getitem (counter_triples ws) (w1, w2, w3)
    ≤ getitem (counter_pairs ws) (w1, w2)
  ∧ getitem (counter_triples ws) (w1, w2, w3)
    ≤ getitem (counter_pairs ws) (w2, w3).
Proof.
  unfold counter_triples, counter_pairs.
  rewrite !getitem_Counter, word_triples_unfold. split.
  - etrans; [apply occurrences_zip3_l|].
    rewrite take_word_pairs. apply occurrences_take.
  - etrans; [apply occurrences_zip3_r|].
    rewrite drop_word_pairs. apply occurrences_drop.
Qed.

(** The number of words but the last. *)
Lemma occurrences_but_last ws (w : string) :
  occurrences w (take (length ws - 1) ws)
  = occurrences w ws - (if decide (last ws = Some w) then 1 else 0).
Proof.
  destruct ws as [|x ws _] using rev_ind; [done|].
  rewrite length_app. simpl.
  replace (length ws + 1 - 1)%nat with (length ws) by lia.
  rewrite take_app_length, last_snoc, occurrences_app, occurrences_cons.
  rewrite occurrences_nil.
  destruct (decide (Some x = Some w)) as [[= ->]|Hne].
  - rewrite decide_True by done. lia.
  - rewrite decide_False by congruence. lia.
Qed.

(** The number of words but the first. *)
Lemma occurrences_but_first ws (w : string) :
  occurrences w (drop 1 ws)
  = occurrences w ws - (if decide (head ws = Some w) then 1 else 0).
Proof.
  destruct ws as [|x ws]; [done|]. simpl. rewrite drop_0, occurrences_cons.
  destruct (decide (Some x = Some w)) as [[= ->]|Hne].
  - rewrite decide_True by done. lia.
  - rewrite decide_False by congruence. lia.
Qed.

End WindowFacts.

(** ** The table and the order of the words *)

Module TableFacts.
Import Counter Ngram CounterFacts WindowFacts.

Section facts.
Context {K : Type} `{Countable K}.
Implicit Types (l : list K) (k : K).

Lemma occurrences_count_occ k l :
  occurrences k l = Z.of_nat (count_occ (decide_rel (=)) l k).
Proof.
  induction l as [|x l IH]; [done|].
  rewrite occurrences_cons, IH. simpl.
  destruct (decide_rel (=) x k) as [->|Hne].
  - rewrite decide_True by done. lia.
  - rewrite decide_False by congruence. lia.
Qed.

Lemma occurrences_perm k l1 l2 :
  l1 ≡ₚ l2 → occurrences k l1 = occurrences k l2.
Proof.
  intros Hp. rewrite !occurrences_count_occ.
  by rewrite (proj1 (Permutation_count_occ _ l1 l2) Hp).
Qed.

(** Two lists give the same table exactly when one is the other in
    another order. *)
Lemma Counter_eq_iff l1 l2 : Counter l1 = Counter l2 ↔ l1 ≡ₚ l2.
Proof.
  split.
  - intros Hc. apply (Permutation_count_occ (decide_rel (=))). intros k.
    apply Nat2Z.inj. rewrite <- !occurrences_count_occ.
    by rewrite <- !getitem_Counter, Hc.
  - intros Hp. apply map_eq. intros k. rewrite !Counter_lookup.
    rewrite (occurrences_perm k _ _ Hp).
    destruct (decide (k ∈ l1)) as [Hin|Hout].
    + rewrite decide_True; [done|]. by rewrite <- Hp.
    + rewrite decide_False; [done|]. by rewrite <- Hp.
Qed.

(** Counting a list after another adds the counts. *)
Lemma getitem_Counter_app l1 l2 k :
  getitem (Counter (l1 ++ l2)) k
  = getitem (Counter l1) k + getitem (Counter l2) k.
Proof. by rewrite !getitem_Counter, occurrences_app. Qed.

Lemma update_Counter l1 l2 : update (Counter l1) l2 = Counter (l1 ++ l2).
Proof. unfold Counter, update. by rewrite foldl_app. Qed.

End facts.
End TableFacts.

(** ** Slices with bounds that are not negative *)

Module SliceFacts.
Import Ngram NgramFacts.

Section facts.
Context {A : Type}.
Implicit Types (l : list A).

Lemma slice_nonneg (a b : Z) l :
  0 ≤ a → 0 ≤ b →
  slice (Some a) (Some b) l
  = take (Z.to_nat b - Z.to_nat a) (drop (Z.to_nat a) l).
Proof.
  intros Ha Hb. unfold slice, adjust, llen.
  destruct (Z.ltb_spec a 0); [lia|]. destruct (Z.ltb_spec b 0); [lia|].
  destruct (Z.leb_spec (Z.of_nat (length l)) a);
    destruct (Z.leb_spec (Z.of_nat (length l)) b).
  - rewrite !drop_ge by lia. by rewrite !take_nil.
  - rewrite !drop_ge by lia. by rewrite !take_nil.
  - rewrite !take_ge; [done| |]; rewrite length_drop; lia.
  - f_equal. lia.
Qed.

Lemma slice_to_nonneg (b : Z) l :
  0 ≤ b → slice None (Some b) l = take (Z.to_nat b) l.
Proof.
  intros Hb. unfold slice, adjust, llen.
  change (Z.to_nat 0) with 0%nat. rewrite drop_0.
  destruct (Z.ltb_spec b 0); [lia|].
  destruct (Z.leb_spec (Z.of_nat (length l)) b).
  - rewrite !take_ge; [done| |]; lia.
  - f_equal. lia.
Qed.

Lemma lookup_slice_nonneg (a b : Z) l (i : nat) :
  0 ≤ a → 0 ≤ b →
  slice (Some a) (Some b) l !! i
  = if decide (a + Z.of_nat i < b) then l !! (Z.to_nat a + i)%nat else None.
Proof.
  intros Ha Hb. rewrite slice_nonneg, lookup_take, lookup_drop by done.
  destruct (decide (i < Z.to_nat b - Z.to_nat a)%nat);
    destruct (decide (a + Z.of_nat i < b)); try done; lia.
Qed.

Lemma length_slice_nonneg (a b : Z) l :
  0 ≤ a → 0 ≤ b →
  llen (slice (Some a) (Some b) l)
  = Z.max 0 (Z.min b (llen l) - Z.min a (llen l)).
Proof.
  intros Ha Hb. unfold llen.
  rewrite slice_nonneg, length_take, length_drop by done. lia.
Qed.

End facts.
End SliceFacts.

(** ** The estimates as probabilities *)

Module EstimateFacts.
Import Counter Ngram Smoothing Ordered Trigram Mass.
Import CounterFacts NgramFacts SmoothingFacts OrderedFacts WindowFacts.

Local Open Scope Qc_scope.

(** A count with a share of a lower-order estimate added, over a larger
    count with the whole of it added, is a probability. *)
Lemma smoothed_range (n_hi n_lo : Z) (eps p : Qc) :
  (0 ≤ n_hi ≤ n_lo)%Z → 0 < eps → 0 < p → p ≤ 1 →
  ∃ q, div (Qc_of_Z n_hi + eps * p) (Qc_of_Z n_lo + eps) = Some q
       ∧ 0 < q ∧ q ≤ 1.
Proof.
  intros [Hhi Hle] Heps Hp0 Hp1.
  assert (0 ≤ Qc_of_Z n_hi) as Hhi' by by apply Qc_of_Z_nonneg.
  assert (Qc_of_Z n_hi ≤ Qc_of_Z n_lo) as Hle' by by apply Qc_of_Z_le.
  assert (0 < eps * p) as Hshare by by apply Qcmult_pos_pos.
  assert (eps * p ≤ eps) as Hshare'.
  { rewrite <- (Qcmult_1_r eps) at 2.
    apply Qcmult_le_mono_nonneg_l; [by apply Qclt_le_weak|done]. }
  assert (0 < Qc_of_Z n_hi + eps * p) as Hnum
    by by apply Qcplus_nonneg_pos.
  assert (Qc_of_Z n_hi + eps * p ≤ Qc_of_Z n_lo + eps) as Hbound
    by by apply Qcplus_le_compat.
  assert (0 < Qc_of_Z n_lo + eps) as Hden by by eapply Qclt_le_trans.
  eexists. split; [|split].
  - apply div_Some. by apply Qc_pos_nonzero.
  - by apply Qcdiv_pos.
  - by apply Qcdiv_le_1.
Qed.

(** With no count of the shorter sequence, the formula gives back the
    lower-order estimate. *)
Lemma smoothed_unseen (eps p : Qc) :
  eps ≠ 0 → div (Qc_of_Z 0 + eps * p) (Qc_of_Z 0 + eps) = Some p.
Proof.
  intros Heps. rewrite Z2Qc_inj_0.
  rewrite div_Some by by rewrite Qcplus_0_l. f_equal. by field.
Qed.

Lemma len_Counter_pos (ws : list string) : ws ≠ [] → (1 ≤ len (Counter ws))%Z.
Proof.
  intros Hws. unfold len. rewrite <- length_first_seen.
  destruct ws as [|w ws]; [done|]. simpl. lia.
Qed.

(** The estimate of a pair on the tables of a corpus. *)
Lemma p_hat_pair_range (ws : list string) w1 w2 eps2 eps1 :
  ws ≠ [] → 0 < eps1 → 0 < eps2 →
  ∃ q, p_hat_pair w2 w1 (counter_pairs ws) (Counter ws) eps2
                  (llen ws) eps1 (len (Counter ws)) = Some q
       ∧ 0 < q ∧ q ≤ 1.
Proof.
  intros Hws Heps1 Heps2. unfold p_hat_pair.
  destruct (unigram_prob_corpus_range ws w2 eps1 Hws Heps1)
    as (p & -> & Hp0 & Hp1). simpl.
  apply smoothed_range; try done. split.
  - unfold counter_pairs. rewrite getitem_Counter. apply occurrences_nonneg.
  - apply pair_count_le.
Qed.

(** The estimate of a triple on the tables of a corpus. *)
Lemma p_hat_triple_range (ws : list string) w1 w2 w3 eps3 p :
  0 < eps3 → 0 < p → p ≤ 1 →
  ∃ q, p_hat_triple w3 w2 w1 (counter_triples ws) (counter_pairs ws) eps3
                    (Some p) = Some q
       ∧ 0 < q ∧ q ≤ 1.
Proof.
  intros Heps Hp0 Hp1. unfold p_hat_triple. simpl.
  apply smoothed_range; try done. split.
  - unfold counter_triples. rewrite getitem_Counter. apply occurrences_nonneg.
  - apply triple_count_le.
Qed.

Lemma p_hat_triple_unseen (ws : list string) w1 w2 w3 eps3 p_low :
  getitem (counter_pairs ws) (w1, w2) = 0%Z → eps3 ≠ 0 →
  p_hat_triple w3 w2 w1 (counter_triples ws) (counter_pairs ws) eps3 p_low
  = p_low.
Proof.
  intros Hpair Heps. unfold p_hat_triple.
  assert (getitem (counter_triples ws) (w1, w2, w3) = 0%Z) as ->.
  { pose proof (proj1 (triple_count_le ws w1 w2 w3)) as Hle.
    unfold counter_triples in *. rewrite getitem_Counter in *.
    pose proof (occurrences_nonneg (w1, w2, w3) (word_triples ws)). lia. }
  rewrite Hpair. destruct p_low as [p|]; [|done]. simpl.
  by apply smoothed_unseen.
Qed.

(** *** The mass of the estimates of the words *)

Lemma sum_map_const_0 {A} (V : list A) : sum (map (λ _, 0%Z) V) = 0%Z.
Proof. induction V as [|w V IH]; simpl; lia. Qed.

Lemma sum_map_add {A} (f g : A → Z) (V : list A) :
  sum (map (λ w, (f w + g w)%Z) V) = (sum (map f V) + sum (map g V))%Z.
Proof. induction V as [|w V IH]; simpl; lia. Qed.

Lemma sum_indicator {A} `{EqDecision A} (x : A) (V : list A) :
  NoDup V → x ∈ V →
  sum (map (λ w, if decide (w = x) then 1%Z else 0%Z) V) = 1%Z.
Proof.
  induction 1 as [|w V Hw Hnd IH]; [by intros ?%elem_of_nil|].
  simpl. intros [->|Hin]%elem_of_cons.
  - rewrite decide_True by done.
    rewrite (map_ext_in _ (λ _, 0%Z)); [rewrite sum_map_const_0; lia|].
    intros v Hv%list_elem_of_In. rewrite decide_False; [done|]. by intros ->.
  - rewrite decide_False by (by intros ->). rewrite IH by done. lia.
Qed.

(** The counts of the words of a vocabulary that holds every word of
    the sequence once add up to the length of the sequence. *)
Lemma sum_occurrences {A} `{EqDecision A} (V ws : list A) :
  NoDup V → (∀ x, x ∈ ws → x ∈ V) →
  sum (map (λ w, occurrences w ws) V) = llen ws.
Proof.
  intros Hnd. induction ws as [|x ws IH]; intros Hin.
  - rewrite (map_ext _ (λ _, 0%Z)) by done. by rewrite sum_map_const_0.
  - rewrite (map_ext _ (λ w, ((if decide (w = x) then 1 else 0)
                             + occurrences w ws)%Z))
      by (intros w; apply occurrences_cons).
    rewrite sum_map_add, sum_indicator, IH; [unfold llen; simpl; lia| |done|].
    + intros y Hy. apply Hin. by right.
    + apply Hin. by left.
Qed.

Lemma sum_probs_smoothed {A} (f : A → Z) (c dnm : Qc) (V : list A) :
  sum_probs (map (λ w, Some ((Qc_of_Z (f w) + c) / dnm)) V)
  = Some ((Qc_of_Z (sum (map f V)) + Qc_of_Z (llen V) * c) / dnm).
Proof.
  unfold llen. induction V as [|w V IH].
  - simpl. f_equal. change (Z.of_nat 0) with 0%Z. rewrite Z2Qc_inj_0.
    unfold Qcdiv. ring.
  - cbn [map sum_probs]. rewrite IH. simpl. f_equal.
    rewrite Nat2Z.inj_succ, <- Z.add_1_l, !Z2Qc_inj_add, Z2Qc_inj_1.
    unfold Qcdiv. ring.
Qed.

(** Over the words of the counter, the estimates add up to 1. *)
Lemma unigram_mass (ws : list string) (eps1 : Qc) :
  ws ≠ [] → Qc_of_Z (llen ws) + eps1 ≠ 0 →
  sum_probs (map (λ w, unigram_prob w (Counter ws) (llen ws) eps1
                                    (len (Counter ws)))
                 (map fst (items ws)))
  = Some 1.
Proof.
  intros Hws Hden. pose proof (len_Counter_pos ws Hws) as Hm.
  rewrite (map_ext _ (λ w, Some ((Qc_of_Z (occurrences w ws)
                                  + eps1 / Qc_of_Z (len (Counter ws)))
                                 / (Qc_of_Z (llen ws) + eps1)))).
  - rewrite sum_probs_smoothed, keys_items.
    rewrite sum_occurrences;
      [|apply NoDup_first_seen|by intros x ?%elem_of_first_seen].
    unfold llen at 2. rewrite length_first_seen. fold (len (Counter ws)).
    f_equal. field. split; [|done]. apply Qc_of_Z_nonzero. lia.
  - intros w. rewrite unigram_prob_defined; [|lia|done].
    by rewrite getitem_Counter.
Qed.

End EstimateFacts.

(** ** The pairs inside the triples *)

Module ProjectionFacts.
Import Counter Ngram CounterFacts NgramFacts WindowFacts.

Lemma fmap_zip3_front {A B C} (a : list A) (b : list B) (c : list C) :
  (length a `min` length b ≤ length c)%nat →
  (λ t, (t.1.1, t.1.2)) <$> zip3 a b c = zip a b.
Proof.
  revert b c. induction a as [|x a IH]; intros [|y b] [|z c]; simpl;
    try done; try lia.
  intros Hlen. f_equal. apply IH. lia.
Qed.

Lemma fmap_zip3_back {A B C} (a : list A) (b : list B) (c : list C) :
  (length b `min` length c ≤ length a)%nat →
  (λ t, (t.1.2, t.2)) <$> zip3 a b c = zip b c.
Proof.
  revert b c. induction a as [|x a IH]; intros [|y b] [|z c]; simpl;
    try done; try lia.
  intros Hlen. f_equal. apply IH. lia.
Qed.

(** The first two words of the triples are the pairs but the last. *)
Lemma word_triples_front ws :
  (λ t, (t.1.1, t.1.2)) <$> word_triples ws
  = slice None (Some (-1)) (word_pairs ws).
Proof.
  rewrite slice_to_minus_1, length_word_pairs, word_triples_unfold.
  rewrite fmap_zip3_front, take_word_pairs.
  - f_equal. lia.
  - rewrite !length_take, !length_drop. lia.
Qed.

(** The last two words of the triples are the pairs but the first. *)
Lemma word_triples_back ws :
  (λ t, (t.1.2, t.2)) <$> word_triples ws
  = slice (Some 1) None (word_pairs ws).
Proof.
  rewrite slice_from_1, word_triples_unfold.
  rewrite fmap_zip3_back, drop_word_pairs; [done|].
  rewrite !length_take, !length_drop. lia.
Qed.

End ProjectionFacts.

(** * Further theorems *)

Module Extras.
Import Text Lines Counter Ngram Smoothing Ordered Trigram Mass Scenario.
Import CounterFacts NgramFacts TextFacts SmoothingFacts.
Import LinesFacts TokenFacts OrderedFacts SortedFacts WindowFacts.
Import TableFacts SliceFacts EstimateFacts ProjectionFacts.


(** X2: a token of a line, taken as a line, has itself as its only
    token, so that tokenising the tokens again changes nothing. *)
Theorem tokens_are_fixed (st tok : string) :
  tok ∈ tokenize st → tokenize tok = [tok].
Proof.
  intros [Hne Hlow]%tokenize_words. by apply tokenize_word.
Qed.

Lemma tokens_are_fixed_witness : tokenize "machine" = ["machine"].
Proof.
  apply (tokens_are_fixed "The Time Machine" "machine").
  replace (tokenize "The Time Machine") with ["the"; "time"; "machine"]
    by (vm_compute; reflexivity).
  do 2 right. left.
Defined.

(** X3: the keys of the word counter of a list of lines are non-empty
    words of the letters a to z, and so are the two words of every key
    of the pair counter; the lookup of any other string gives 0. *)
Theorem counter_keys_are_words (lines : list string) :
  (∀ w, is_Some (counter (raw_dataset lines) !! w) →
     w ≠ EmptyString ∧ all_chars is_lower_alpha w = true)
  ∧ (∀ w1 w2,
       is_Some (counter_pairs (wseq (raw_dataset lines)) !! (w1, w2)) →
       (w1 ≠ EmptyString ∧ all_chars is_lower_alpha w1 = true)
       ∧ (w2 ≠ EmptyString ∧ all_chars is_lower_alpha w2 = true))
  ∧ (∀ w, w = EmptyString ∨ all_chars is_lower_alpha w = false →
       getitem (counter (raw_dataset lines)) w = 0).
Proof.
  assert (∀ w, w ∈ wseq (raw_dataset lines) →
            w ≠ EmptyString ∧ all_chars is_lower_alpha w = true) as Hword.
  { intros w (st & _ & Hw)%elem_of_wseq_raw_dataset.
    by apply (tokenize_words st). }
  split_and!.
  - intros w Hw%Counter_stored. by apply Hword.
  - intros w1 w2 Hp%Counter_stored. split; apply Hword.
    + by apply (word_pairs_first _ w1 w2).
    + by apply (word_pairs_second _ w1 w2).
  - intros w Hw. unfold counter. rewrite getitem_Counter.
    apply occurrences_absent. intros [Hne Hlow]%Hword.
    destruct Hw as [->|Hw]; [done|congruence].
Qed.

(** X4: two lists have the same counter exactly when one is the other
    in another order; and counting a list after another adds the
    counts, key by key. *)
Theorem counter_order_independent {K} `{Countable K} (l1 l2 : list K) :
  (Counter l1 = Counter l2 ↔ l1 ≡ₚ l2)
  ∧ update (Counter l1) l2 = Counter (l1 ++ l2)
  ∧ (∀ k, getitem (Counter (l1 ++ l2)) k
          = getitem (Counter l1) k + getitem (Counter l2) k).
Proof.
  split_and!.
  - apply Counter_eq_iff.
  - apply update_Counter.
  - apply getitem_Counter_app.
Qed.

(** X5: the items of a counter are its keys with their counts, each
    key once, in the order in which the keys were first counted. *)
Theorem items_in_first_seen_order {K} `{Countable K} (l : list K) :
  map fst (items l) = first_seen l
  ∧ NoDup (map fst (items l))
  ∧ (∀ k, k ∈ map fst (items l) ↔ k ∈ l)
  ∧ (∀ k n, (k, n) ∈ items l ↔ Counter l !! k = Some n).
Proof.
  split_and!.
  - apply keys_items.
  - rewrite keys_items. apply NoDup_first_seen.
  - intros k. rewrite keys_items. apply elem_of_first_seen.
  - apply elem_of_items.
Qed.

(** X6: [most_common()] lists every item of the counter once, by
    decreasing count, and the items of one count in the order in which
    the counter holds them. *)
Theorem most_common_sorted {K} `{Countable K} (l : list K) :
  most_common None (items l) ≡ₚ items l
  ∧ StronglySorted by_count (most_common None (items l))
  ∧ (∀ v : Z, filter (λ y, y.2 = v) (most_common None (items l))
              = filter (λ y, y.2 = v) (items l))
  ∧ (∀ k n, (k, n) ∈ most_common None (items l)
            ↔ Counter l !! k = Some n).
Proof.
  split_and!.
  - apply sorted_desc_perm.
  - apply sorted_desc_sorted.
  - intros v. apply sorted_desc_stable.
  - apply elem_of_most_common_all.
Qed.

(** X7: for n that is not negative, [most_common(n)] lists n items, or
    all of them when the counter holds fewer; they are the first of
    [most_common()], and no item left out has a larger count than a
    listed one. *)
Theorem most_common_top {K} `{Countable K} (n : Z) (l : list K) :
  0 ≤ n →
  llen (most_common (Some n) (items l)) = Z.min n (len (Counter l))
  ∧ most_common (Some n) (items l)
    `prefix_of` most_common None (items l)
  ∧ (∀ x y, x ∈ most_common (Some n) (items l) → y ∈ items l →
            y ∉ most_common (Some n) (items l) → y.2 ≤ x.2).
Proof.
  intros Hn. split_and!.
  - unfold llen, len. by rewrite length_most_common, length_items.
  - apply prefix_take.
  - intros x y Hx Hy Hout. simpl in Hx, Hout.
    apply (sorted_split (take (Z.to_nat n) (sorted_desc (items l)))
             (drop (Z.to_nat n) (sorted_desc (items l)))); [|done|].
    + rewrite take_drop. apply sorted_desc_sorted.
    + rewrite <- (sorted_desc_perm (items l)) in Hy.
      rewrite <- (take_drop (Z.to_nat n) (sorted_desc (items l))) in Hy.
      by apply elem_of_app in Hy as [?|?].
Qed.

Lemma most_common_top_witness :
  llen (most_common (Some 1) (items tokens)) = Z.min 1 (len (Counter tokens)).
Proof.
  refine (proj1 (most_common_top 1 tokens _)). vm_compute. discriminate.
Defined.

(** X8: when something was counted, [most_common(1)] is one item: a key
    of the counter with its count, which no count of the counter
    exceeds, and the first item of the counter that has this count. *)
Theorem most_common_first {K} `{Countable K} (l : list K) :
  l ≠ [] →
  ∃ top, most_common (Some 1) (items l) = [top]
         ∧ Counter l !! top.1 = Some top.2
         ∧ (∀ k, getitem (Counter l) k ≤ top.2)
         ∧ head (filter (λ y, y.2 = top.2) (items l)) = Some top.
Proof.
  intros Hl. pose proof (sorted_desc_sorted (items l)) as Hsorted.
  assert (∀ v : Z, filter (λ y : K * Z, y.2 = v) (sorted_desc (items l))
                   = filter (λ y, y.2 = v) (items l)) as Hstable
    by (intros v; apply sorted_desc_stable).
  assert (∀ k n, (k, n) ∈ sorted_desc (items l) ↔ Counter l !! k = Some n)
    as Hall by apply elem_of_most_common_all.
  destruct (sorted_desc (items l)) as [|[k0 n0] s] eqn:Hs.
  { destruct l as [|x l]; [done|].
    assert (is_Some (Counter (x :: l) !! x)) as [n Hn]
      by (apply Counter_stored; left).
    apply Hall in Hn. by apply elem_of_nil in Hn. }
  exists (k0, n0). cbn [fst snd].
  assert (Counter l !! k0 = Some n0) as Htop
    by (apply (proj1 (Hall k0 n0)); left).
  apply StronglySorted_inv in Hsorted as [_ Hrest].
  split_and!; [by simpl; rewrite Hs|done| |].
  - intros k. unfold getitem. destruct (Counter l !! k) as [n|] eqn:Hk.
    + apply Hall in Hk. apply elem_of_cons in Hk as [[= _ ->]|Hk]; [done|].
      by apply (proj1 (Forall_forall _ _) Hrest (k, n)).
    + pose proof (proj1 (proj2 (Counter_invariant l)) k0 n0 Htop). lia.
  - rewrite <- (Hstable n0), filter_cons_True by done. done.
Qed.

Lemma most_common_first_witness :
  ∃ top, most_common (Some 1) (items tokens) = [top]
         ∧ Counter tokens !! top.1 = Some top.2
         ∧ (∀ k, getitem (Counter tokens) k ≤ top.2)
         ∧ head (filter (λ y, y.2 = top.2) (items tokens)) = Some top.
Proof. apply (most_common_first tokens). discriminate. Defined.

(** X9: the counts that are plotted are in decreasing order, each at
    least 1, as many as the table has keys, and they add up to the
    number of n-grams counted: the number of words, and that number
    less 1 for the pairs and less 2 for the triples, or 0. *)
Theorem counts_profile {K} `{Countable K} (l : list K) (ws : list string) :
  StronglySorted (λ a b : Z, b ≤ a) (counts (items l))
  ∧ Forall (λ c, 1 ≤ c) (counts (items l))
  ∧ llen (counts (items l)) = len (Counter l)
  ∧ sum (counts (items l)) = llen l
  ∧ sum (counts (items (word_pairs ws))) = Z.max 0 (llen ws - 1)
  ∧ sum (counts (items (word_triples ws))) = Z.max 0 (llen ws - 2).
Proof.
  assert (∀ {K'} `{Countable K'} (l' : list K'),
            sum (counts (items l')) = llen l') as Hsum.
  { intros K' ?? l'. rewrite (sum_perm _ _ (counts_perm l')).
    apply sum_items. }
  split_and!.
  - apply sorted_map_snd, sorted_desc_sorted.
  - rewrite (counts_perm l). apply Forall_forall.
    intros c Hc%list_elem_of_In. apply in_map_iff in Hc as ([k n] & <- & Hkn).
    apply (items_positive l k). by apply list_elem_of_In.
  - unfold llen, len, counts.
    by rewrite length_map, (Permutation_length (most_common_all_perm _)),
      length_items.
  - exact (Hsum K _ _ l).
  - rewrite (Hsum _ _ _ (word_pairs ws)). unfold llen.
    rewrite length_word_pairs. lia.
  - rewrite (Hsum _ _ _ (word_triples ws)). unfold llen.
    rewrite length_word_triples. lia.
Qed.

(** X10: a slice with bounds that are not negative never fails: its
    element at position i is the element at position a + i of the list
    when a + i is below b, and nothing otherwise, so that it has
    [min(b, len) - min(a, len)] elements, or none; without a lower bound
    it is the first b elements. *)
Theorem slice_in_bounds {A} (a b : Z) (l : list A) :
  0 ≤ a → 0 ≤ b →
  (∀ i : nat,
     slice (Some a) (Some b) l !! i
     = if decide (a + Z.of_nat i < b) then l !! (Z.to_nat a + i)%nat
       else None)
  ∧ llen (slice (Some a) (Some b) l)
    = Z.max 0 (Z.min b (llen l) - Z.min a (llen l))
  ∧ slice None (Some b) l = take (Z.to_nat b) l.
Proof.
  intros Ha Hb. split_and!.
  - intros i. by apply lookup_slice_nonneg.
  - by apply length_slice_nonneg.
  - by apply slice_to_nonneg.
Qed.

Lemma slice_in_bounds_witness :
  llen (slice (Some 8) (Some 10) tokens)
  = Z.max 0 (Z.min 10 (llen tokens) - Z.min 8 (llen tokens)).
Proof.
  refine (proj1 (proj2 (slice_in_bounds 8 10 tokens _ _)));
    vm_compute; discriminate.
Defined.

(** X11: the first words of the pairs are the words but the last and
    their second words are the words but the first; the first two words
    of the triples are the pairs but the last and their last two words
    are the pairs but the first. *)
Theorem pairs_and_triples_project (ws : list string) :
  (word_pairs ws).*1 = slice None (Some (-1)) ws
  ∧ (word_pairs ws).*2 = slice (Some 1) None ws
  ∧ (λ t, (t.1.1, t.1.2)) <$> word_triples ws
    = slice None (Some (-1)) (word_pairs ws)
  ∧ (λ t, (t.1.2, t.2)) <$> word_triples ws
    = slice (Some 1) None (word_pairs ws).
Proof.
  split_and!.
  - apply word_pairs_fst.
  - apply word_pairs_snd.
  - apply word_triples_front.
  - apply word_triples_back.
Qed.

(** X12: a pair is never counted more often than its first word or its
    second word, and a triple never more often than its first two words
    or its last two words. *)
Theorem ngram_counts_nested (ws : list string) (w1 w2 w3 : string) :
  getitem (counter_pairs ws) (w1, w2) ≤ getitem (Counter ws) w1
  ∧ getitem (counter_pairs ws) (w1, w2) ≤ getitem (Counter ws) w2
  ∧ getitem (counter_triples ws) (w1, w2, w3)
    ≤ getitem (counter_pairs ws) (w1, w2)
  ∧ getitem (counter_triples ws) (w1, w2, w3)
    ≤ getitem (counter_pairs ws) (w2, w3).
Proof.
  destruct (pair_count_le ws w1 w2) as [H1 H2].
  destruct (triple_count_le ws w1 w2 w3) as [H3 H4]. done.
Qed.

(** X13: the number of pairs that start with a word is the count of the
    word, less 1 when it is the last word of the sequence; the number of
    pairs that end with it is its count, less 1 when it is the first
    word. *)
Theorem pairs_with_word (ws : list string) (w : string) :
  llen (filter (λ p, p.1 = w) (word_pairs ws))
  = getitem (Counter ws) w - (if decide (last ws = Some w) then 1 else 0)
  ∧ llen (filter (λ p, p.2 = w) (word_pairs ws))
    = getitem (Counter ws) w - (if decide (head ws = Some w) then 1 else 0).
Proof.
  rewrite getitem_Counter, <- !occurrences_fmap. split.
  - rewrite word_pairs_fst, slice_to_minus_1. apply occurrences_but_last.
  - rewrite word_pairs_snd, slice_from_1. apply occurrences_but_first.
Qed.

(** X14: on the table of a corpus that is not empty, with n its number
    of words and m its number of keys, the estimates of the first
    formula, added over the keys of the table, give 1. *)
Theorem unigram_estimates_sum_to_one (ws : list string) (eps1 : Qc) :
  ws ≠ [] → (Qc_of_Z (llen ws) + eps1)%Qc ≠ 0%Qc →
  sum_probs (map (λ w, unigram_prob w (Counter ws) (llen ws) eps1
                                    (len (Counter ws)))
                 (map fst (items ws)))
  = Some 1%Qc.
Proof. apply unigram_mass. Qed.

Lemma unigram_estimates_sum_to_one_witness :
  sum_probs (map (λ w, unigram_prob w unigram_table 5 1 2)
                 (map fst (items tokens)))
  = Some 1%Qc.
Proof.
  apply (unigram_estimates_sum_to_one tokens 1%Qc).
  - discriminate.
  - vm_compute. discriminate.
Defined.

(** X15: on the tables of a corpus that is not empty, with positive
    eps1 and eps2, the estimate of the second formula is greater than 0
    and at most 1 for every pair of words, counted or not. *)
Theorem pair_estimate_is_probability (ws : list string) (w1 w2 : string)
    (eps2 eps1 : Qc) :
  ws ≠ [] → (0 < eps1)%Qc → (0 < eps2)%Qc →
  ∃ q, p_hat_pair w2 w1 (counter_pairs ws) (Counter ws) eps2
                  (llen ws) eps1 (len (Counter ws)) = Some q
       ∧ (0 < q)%Qc ∧ (q ≤ 1)%Qc.
Proof. apply p_hat_pair_range. Qed.

Lemma pair_estimate_is_probability_witness :
  ∃ q, p_hat_pair "b" "c" bigram_table unigram_table 1 5 1 2 = Some q
       ∧ (0 < q)%Qc ∧ (q ≤ 1)%Qc.
Proof.
  apply (pair_estimate_is_probability tokens "c" "b" 1%Qc 1%Qc).
  - discriminate.
  - reflexivity.
  - reflexivity.
Defined.

(** X16: on the tables of a corpus, the estimate of the third formula is
    greater than 0 and at most 1 when eps3 is positive and the estimate
    that it fills in is; and when the first two words were never counted
    as a pair and eps3 is not 0, it is that estimate. *)
Theorem triple_estimate (ws : list string) (w1 w2 w3 : string)
    (eps3 : Qc) (p_low : option Qc) :
  (∀ p, p_low = Some p → (0 < eps3)%Qc → (0 < p)%Qc → (p ≤ 1)%Qc →
     ∃ q, p_hat_triple w3 w2 w1 (counter_triples ws) (counter_pairs ws)
                       eps3 p_low = Some q
          ∧ (0 < q)%Qc ∧ (q ≤ 1)%Qc)
  ∧ (getitem (counter_pairs ws) (w1, w2) = 0 → eps3 ≠ 0%Qc →
     p_hat_triple w3 w2 w1 (counter_triples ws) (counter_pairs ws)
                  eps3 p_low = p_low).
Proof.
  split.
  - intros p -> Heps Hp0 Hp1. by apply p_hat_triple_range.
  - apply p_hat_triple_unseen.
Qed.

Lemma triple_estimate_witness :
  p_hat_triple "a" "b" "b" (counter_triples tokens) (counter_pairs tokens)
               1 (Some 1%Qc) = Some 1%Qc.
Proof.
  refine (proj2 (triple_estimate tokens "b" "b" "a" 1%Qc (Some 1%Qc)) _ _).
  - vm_compute. reflexivity.
  - vm_compute. discriminate.
Defined.

End Extras.
